(** * A crafting planner: recipes, goals and the time-bounded search

    Shallow embedding of [craft_planner.py].

    - Python [int]s are [Z]; item names and recipe names are [string]s.
    - A Python [dict] with string keys is an association list in insertion
      order ([dict V]); a [State] (an [OrderedDict] subclass) is a [dict Z].
      Order matters: [State.__lt__] and [OrderedDict.__eq__] compare the
      items in insertion order.
    - Exceptions are values of [exn]; fallible code lives in [result].
    - The search tables ([cost_so_far], [came_from], [actions]) are Python
      dicts keyed by states, hashed and compared by value: [gmap State _].
    - The wall clock [time()] is an oracle [clock : nat -> Z]: its [k]-th
      call returns [clock k]. *)

From Stdlib Require Import ZArith List Lia Bool.
From stdpp Require Import base option list strings gmap.

Open Scope Z_scope.

(** ** Exceptions and results *)

Definition dict (V : Type) : Type := list (string * V).

(** [State]: item name to quantity (line 10). *)
Definition State : Type := dict Z.

Inductive exn : Type :=
| KeyError_item (key : string)    (* [d[key]] on a dict keyed by strings *)
| KeyError_state (key : State)    (* [d[key]] on a table keyed by states *)
| IndexError.                     (* [heappop] on an empty list *)

Inductive result (A : Type) : Type :=
| Ok (a : A)
| Raise (e : exn).
Arguments Ok {A} a.
Arguments Raise {A} e.

#[global] Instance result_ret : MRet result := fun A a => Ok a.
#[global] Instance result_bind : MBind result := fun A B f m =>
  match m with
  | Ok a => f a
  | Raise e => Raise e
  end.

(** A [for] loop whose body may [return]: the body says whether the loop
    goes on to the next element or the enclosing function returns. *)
Inductive flow (R : Type) : Type :=
| Continue
| Return (r : R).
Arguments Continue {R}.
Arguments Return {R} r.

Fixpoint for_each {A R : Type} (xs : list A) (body : A -> result (flow R))
  : result (flow R) :=
  match xs with
  | [] => Ok Continue
  | x :: xs' =>
      match body x with
      | Raise e => Raise e
      | Ok (Return r) => Ok (Return r)
      | Ok Continue => for_each xs' body
      end
  end.

(** A [for] loop that only updates a local variable. *)
Fixpoint for_fold {A S : Type} (xs : list A) (body : S -> A -> result S) (s : S)
  : result S :=
  match xs with
  | [] => Ok s
  | x :: xs' =>
      match body s x with
      | Raise e => Raise e
      | Ok s' => for_fold xs' body s'
      end
  end.

(** ** Dictionaries *)

Definition keys {V : Type} (d : dict V) : list string := map fst d.

Fixpoint lookup_key {V : Type} (d : dict V) (k : string) : option V :=
  match d with
  | [] => None
  | (k', v) :: d' => if String.eqb k k' then Some v else lookup_key d' k
  end.

(** [d[k]]: raises [KeyError] on a missing key. *)
Definition getitem {V : Type} (d : dict V) (k : string) : result V :=
  match lookup_key d k with
  | Some v => Ok v
  | None => Raise (KeyError_item k)
  end.

(** [d[k] = v]: an existing key keeps its position, a new key goes last. *)
Fixpoint setitem {V : Type} (d : dict V) (k : string) (v : V) : dict V :=
  match d with
  | [] => [(k, v)]
  | (k', v') :: d' =>
      if String.eqb k k' then (k', v) :: d' else (k', v') :: setitem d' k v
  end.

(** [d.update(other)]. *)
Definition update {V : Type} (d other : dict V) : dict V :=
  fold_left (fun acc kv => setitem acc (fst kv) (snd kv)) other d.

(** [State.copy] (lines 29-32): a new empty state, updated from [self]. *)
Definition copy (self : State) : State :=
  let new_state : State := [] in
  update new_state self.

(** A well-formed dictionary has no repeated key. *)
Definition is_dict {V : Type} (d : dict V) : Prop := NoDup (keys d).

(** [contains state items]: every item of [items] is a key of [state]. *)
Definition contains {V : Type} (d : dict V) (items : list string) : Prop :=
  forall k, In k items -> lookup_key d k <> None.

(** ** Rules and recipes *)

(** A rule of [Crafting.json]: the three clauses are optional keys of the
    rule object, [Time] is required. *)
Record Rule : Type := {
  Requires : option (dict bool);
  Consumes : option (dict Z);
  Produces : option (dict Z);
  Time : Z
}.

(** [Recipe = namedtuple('Recipe', ['name', 'check', 'effect', 'cost'])]. *)
Record Recipe : Type := {
  name : string;
  check : State -> result bool;
  effect : State -> result State;
  cost : Z
}.

(** Lines 38-62. *)
Definition make_checker (rule : Rule) : State -> result bool :=
  fun state =>
    c ← match Consumes rule with
        | Some consumes =>
            for_each (keys consumes) (fun consumedItem =>
              have ← getitem state consumedItem;
              need ← getitem consumes consumedItem;
              if have - need <? 0 then Ok (Return false) else Ok Continue)
        | None => Ok Continue
        end;
    match c with
    | Return b => Ok b
    | Continue =>
        r ← match Requires rule with
            | Some requires =>
                for_each (keys requires) (fun requiredItem =>
                  have ← getitem state requiredItem;
                  if have =? 0 then Ok (Return false) else Ok Continue)
            | None => Ok Continue
            end;
        match r with
        | Return b => Ok b
        | Continue => Ok true
        end
    end.

(** Lines 65-88.  Both loops read the quantity from [state], the argument,
    and write to [next_state], the copy. *)
Definition make_effector (rule : Rule) : State -> result State :=
  fun state =>
    let next_state := copy state in
    next_state ← match Produces rule with
                 | Some produces =>
                     for_fold (keys produces) (fun next_state produce =>
                       have ← getitem state produce;
                       amount ← getitem produces produce;
                       Ok (setitem next_state produce (have + amount)))
                       next_state
                 | None => Ok next_state
                 end;
    next_state ← match Consumes rule with
                 | Some consumes =>
                     for_fold (keys consumes) (fun next_state consume =>
                       have ← getitem state consume;
                       amount ← getitem consumes consume;
                       Ok (setitem next_state consume (have - amount)))
                       next_state
                 | None => Ok next_state
                 end;
    Ok next_state.

(** Lines 203-208: one recipe per rule. *)
Definition make_recipe (nm : string) (rule : Rule) : Recipe :=
  {| name := nm;
     check := make_checker rule;
     effect := make_effector rule;
     cost := Time rule |}.

(** Lines 91-104. *)
Definition make_goal_checker (goal : dict Z) : State -> result bool :=
  fun state =>
    r ← for_each (keys goal) (fun singleGoal =>
          have ← getitem state singleGoal;
          want ← getitem goal singleGoal;
          if have <? want then Ok (Return false) else Ok Continue);
    match r with
    | Return b => Ok b
    | Continue => Ok true
    end.

(** ** The transition graph *)

(** What a generator does when it is iterated to its end: the values it
    yields, in order, and the exception that ends it, if any. *)
Definition generated (A : Type) : Type := (list A * option exn)%type.

Definition yield {A : Type} (a : A) (g : generated A) : generated A :=
  (a :: fst g, snd g).

(** Lines 107-113; the global [all_recipes] is a parameter. *)
Fixpoint graph (all_recipes : list Recipe) (state : State)
  : generated (string * State * Z) :=
  match all_recipes with
  | [] => ([], None)
  | r :: rest =>
      match check r state with
      | Raise e => ([], Some e)
      | Ok false => graph rest state
      | Ok true =>
          match effect r state with
          | Raise e => ([], Some e)
          | Ok next_state => yield (name r, next_state, cost r) (graph rest state)
          end
      end
  end.

(** ** The heuristic *)

(** A priority: a number or [math.inf]. *)
Inductive prio : Type :=
| Fin (z : Z)
| Inf.

Definition tools : list string :=
  ["bench"; "wooden_pickaxe"; "wooden_axe"; "stone_axe"; "stone_pickaxe";
   "iron_pickaxe"; "iron_axe"; "furnace"]%string.

(** Lines 116-129.  The [return 0] of line 124 is inside the loop body,
    after the [if]: the body always returns. *)
Definition heuristic (state : State) : result prio :=
  let current_state := copy state in
  r ← for_each tools (fun tool =>
        have ← getitem state tool;
        if 1 <? have then Ok (Return Inf) else Ok (Return (Fin 0)));
  match r with
  | Return p => Ok p
  | Continue => Ok (Fin 0)
  end.

(** ** The frontier *)

(** [new_cost + heuristic(adj_state)]. *)
Definition prio_add (c : Z) (h : prio) : prio :=
  match h with
  | Fin z => Fin (c + z)
  | Inf => Inf
  end.

Definition prio_compare (p q : prio) : comparison :=
  match p, q with
  | Fin a, Fin b => Z.compare a b
  | Fin _, Inf => Lt
  | Inf, Fin _ => Gt
  | Inf, Inf => Eq
  end.

(** Python compares tuples lexicographically: the first components that
    differ decide, and a proper prefix is smaller. *)
Definition pair_compare {A B : Type} (cmpA : A -> A -> comparison)
    (cmpB : B -> B -> comparison) (x y : A * B) : comparison :=
  match cmpA (fst x) (fst y) with
  | Eq => cmpB (snd x) (snd y)
  | c => c
  end.

Fixpoint tuple_compare {A : Type} (cmp : A -> A -> comparison) (s t : list A)
  : comparison :=
  match s, t with
  | [], [] => Eq
  | [], _ :: _ => Lt
  | _ :: _, [] => Gt
  | x :: s', y :: t' =>
      match cmp x y with
      | Eq => tuple_compare cmp s' t'
      | c => c
      end
  end.

(** [State.__lt__] (lines 20-27) compares [tuple(self.items())]. *)
Definition state_compare : State -> State -> comparison :=
  tuple_compare (pair_compare String.compare Z.compare).

(** [(p, s) < (q, t)] on queue entries. *)
Definition entry_compare : prio * State -> prio * State -> comparison :=
  pair_compare prio_compare state_compare.

Definition entry_lt (x y : prio * State) : bool :=
  match entry_compare x y with
  | Lt => true
  | _ => false
  end.

(** The queue is kept as the list of its entries; [heapq] guarantees that
    [heappop] removes a smallest entry, and two smallest entries are equal
    values. *)
Definition heappush (queue : list (prio * State)) (x : prio * State)
  : list (prio * State) :=
  x :: queue.

(** [pop_min best others queue]: the smallest of [best :: queue], and
    [others] with the entries set aside. *)
Fixpoint pop_min (best : prio * State) (others queue : list (prio * State))
  : (prio * State) * list (prio * State) :=
  match queue with
  | [] => (best, others)
  | x :: queue' =>
      if entry_lt x best then pop_min x (best :: others) queue'
      else pop_min best (x :: others) queue'
  end.

Definition heappop (queue : list (prio * State))
  : option ((prio * State) * list (prio * State)) :=
  match queue with
  | [] => None
  | x :: queue' => Some (pop_min x [] queue')
  end.

(** ** The search (lines 132-184) *)

Definition link : Type := (State * option string)%type.

(** The bookkeeping of one search. *)
Record book : Type := Book {
  queue : list (prio * State);
  cost_so_far : gmap State Z;
  came_from : gmap State (option State);
  actions : gmap State (option string)
}.

(** Where the search is: at the loop test of line 149 (after [iter]
    completed iterations), inside the [for] of line 171 with the neighbours
    still to come, inside the [while] of line 158, or finished. *)
Inductive config : Type :=
| AtLoop (b : book) (iter : nat)
| InFor (b : book) (iter : nat) (current_state : State)
        (pending : list (string * State * Z)) (ending : option exn)
| Rebuild (b : book) (path : list link) (current_state : option State)
| Returned (r : option (list link))
| Raised (e : exn).

Section Search.

Variable graph_fn : State -> generated (string * State * Z).
Variable state : State.
Variable is_goal : State -> result bool.
Variable limit : Z.
Variable heuristic_fn : State -> result prio.
Variable clock : nat -> Z.

(** Lines 134-143; [start_time] is [clock 0]. *)
Definition init : config :=
  AtLoop {| queue := [(Fin 0, state)];
            cost_so_far := {[ state := 0 ]};
            came_from := {[ state := None ]};
            actions := {[ state := None ]} |} 0.

(** Lines 172-178, for one neighbour. *)
Definition relax (b : book) (current_state : State)
    (adj : string * State * Z) : result book :=
  let '(adj_action, adj_state, adj_cost) := adj in
  match cost_so_far b !! current_state with
  | None => Raise (KeyError_state current_state)
  | Some cost_current =>
      let new_cost := cost_current + adj_cost in
      if match cost_so_far b !! adj_state with
         | None => true
         | Some old => new_cost <? old
         end
      then
        h ← heuristic_fn adj_state;
        Ok {| cost_so_far := <[ adj_state := new_cost ]> (cost_so_far b);
              actions := <[ adj_state := Some adj_action ]> (actions b);
              queue := heappush (queue b) (prio_add new_cost h, adj_state);
              came_from := <[ adj_state := Some current_state ]> (came_from b) |}
      else Ok b
  end.

(** [(s, actions[s])] and [came_from[s]], lines 153-156 and 160-162. *)
Definition follow (b : book) (s : State) : result (link * option State) :=
  match actions b !! s with
  | None => Raise (KeyError_state s)
  | Some a =>
      match came_from b !! s with
      | None => Raise (KeyError_state s)
      | Some p => Ok ((s, a), p)
      end
  end.

Definition step (c : config) : config :=
  match c with
  | AtLoop b iter =>
      if clock (S iter) - clock 0 <? limit then
        match heappop (queue b) with
        | None => Raised IndexError
        | Some ((_, current_state), queue') =>
            let b := {| queue := queue'; cost_so_far := cost_so_far b;
                        came_from := came_from b; actions := actions b |} in
            match is_goal current_state with
            | Raise e => Raised e
            | Ok true =>
                match follow b current_state with
                | Raise e => Raised e
                | Ok (lnk, previous) => Rebuild b [lnk] previous
                end
            | Ok false =>
                let g := graph_fn current_state in
                InFor b iter current_state (fst g) (snd g)
            end
        end
      else Returned None
  | InFor b iter current_state [] ending =>
      match ending with
      | Some e => Raised e
      | None => AtLoop b (S iter)
      end
  | InFor b iter current_state (adj :: pending) ending =>
      match relax b current_state adj with
      | Raise e => Raised e
      | Ok b' => InFor b' iter current_state pending ending
      end
  | Rebuild b path None => Returned (Some (rev path))
  | Rebuild b path (Some current_state) =>
      match follow b current_state with
      | Raise e => Raised e
      | Ok (lnk, previous) => Rebuild b (path ++ [lnk]) previous
      end
  | Returned r => Returned r
  | Raised e => Raised e
  end.

(** The configuration after [n] steps. *)
Fixpoint run (n : nat) : config :=
  match n with
  | O => init
  | S n' => step (run n')
  end.

(** [search]: what the call does, if it is over within [fuel] steps. *)
Definition search (fuel : nat) : option (result (option (list link))) :=
  match run fuel with
  | Returned r => Some (Ok r)
  | Raised e => Some (Raise e)
  | _ => None
  end.

(** *** What holds along a run *)

(** [s] has an entry in each of the three tables. *)
Definition known (b : book) (s : State) : Prop :=
  is_Some (cost_so_far b !! s) /\ is_Some (came_from b !! s)
  /\ is_Some (actions b !! s).

Definition tables_ok (b : book) : Prop :=
  (forall s, is_Some (came_from b !! s) -> is_Some (cost_so_far b !! s)) /\
  (forall s, is_Some (actions b !! s) -> is_Some (cost_so_far b !! s)) /\
  (forall p s, In (p, s) (queue b) -> known b s) /\
  (forall s p, came_from b !! s = Some (Some p) -> known b p).

(** The tables are closed, and so is the state the next step looks up;
    the exception kept for the end of the [for] is the generator's. *)
Definition config_ok (c : config) : Prop :=
  match c with
  | AtLoop b _ => tables_ok b
  | InFor b _ current_state _ ending =>
      tables_ok b /\ known b current_state
      /\ ending = snd (graph_fn current_state)
  | Rebuild b _ current_state =>
      tables_ok b /\ forall s, current_state = Some s -> known b s
  | Returned _ => True
  | Raised _ => True
  end.

(** [e] is what one of the three callbacks raises on some state. *)
Definition from_callback (e : exn) : Prop :=
  exists s, is_goal s = Raise e \/ snd (graph_fn s) = Some e
            \/ heuristic_fn s = Raise e.

(** The graph yields [(a, s, _)] on [p]. *)
Definition edge (p : State) (a : string) (s : State) : Prop :=
  exists c, In (a, s, c) (fst (graph_fn p)).

(** Every predecessor link is an edge from an expanded state, which is
    not a goal; only the start has no predecessor. *)
Definition links_ok (b : book) : Prop :=
  (forall s, came_from b !! s = Some None ->
             s = state /\ actions b !! s = Some None) /\
  (forall s p, came_from b !! s = Some (Some p) ->
               is_goal p = Ok false /\
               exists a, actions b !! s = Some (Some a) /\ edge p a s).

(** [chain x rest]: [x :: rest] goes edge by edge through states that
    are not goals to a last one that is. *)
Fixpoint chain (x : link) (rest : list link) : Prop :=
  match rest with
  | [] => is_goal (fst x) = Ok true
  | y :: rest' =>
      is_goal (fst x) = Ok false /\
      (exists a, snd y = Some a /\ edge (fst x) a (fst y)) /\
      chain y rest'
  end.

Definition path_inv (c : config) : Prop :=
  match c with
  | AtLoop b _ => links_ok b
  | InFor b _ current_state pending _ =>
      links_ok b /\ is_goal current_state = Ok false /\
      forall x, In x pending -> In x (fst (graph_fn current_state))
  | Rebuild b path current_state =>
      links_ok b /\
      exists s a rest,
        rev path = (s, a) :: rest /\ came_from b !! s = Some current_state /\
        actions b !! s = Some a /\ chain (s, a) rest
  | Returned (Some path) =>
      exists rest, path = (state, None) :: rest /\ chain (state, None) rest
  | Returned None => True
  | Raised _ => True
  end.

(** The [for] of line 171 is not entered. *)
Definition not_expanding (c : config) : Prop :=
  match c with
  | InFor _ _ _ _ _ => False
  | _ => True
  end.

End Search.

(** ** Objects and references

    For the question of who writes where, states and rules are objects in a
    store and the code handles references to them.  [new_state] allocates,
    [st_setitem] is the only write. *)

Module Heap.

Definition loc : Type := nat.

Record store : Type := Store {
  states : list State;
  rules : list Rule
}.

Definition M (A : Type) : Type := store -> store * result A.

Definition ret {A : Type} (a : A) : M A := fun h => (h, Ok a).

Definition bind {A B : Type} (m : M A) (f : A -> M B) : M B :=
  fun h =>
    match m h with
    | (h', Ok a) => f a h'
    | (h', Raise e) => (h', Raise e)
    end.

Definition state_at (h : store) (l : loc) : State :=
  default [] (states h !! l).

Definition rule_at (h : store) (l : loc) : Rule :=
  default {| Requires := None; Consumes := None; Produces := None; Time := 0 |}
          (rules h !! l).

(** [State()]. *)
Definition new_state : M loc :=
  fun h => ({| states := states h ++ [[]]; rules := rules h |},
            Ok (length (states h))).

(** [state[k]]. *)
Definition st_getitem (l : loc) (k : string) : M Z :=
  fun h => (h, getitem (state_at h l) k).

(** [state[k] = v]. *)
Definition st_setitem (l : loc) (k : string) (v : Z) : M unit :=
  fun h => ({| states := <[ l := setitem (state_at h l) k v ]> (states h);
               rules := rules h |}, Ok tt).

(** [state.items()]. *)
Definition st_items (l : loc) : M (list (string * Z)) :=
  fun h => (h, Ok (state_at h l)).

(** The rule a closure has captured. *)
Definition read_rule (l : loc) : M Rule :=
  fun h => (h, Ok (rule_at h l)).

Definition lift {A : Type} (r : result A) : M A := fun h => (h, r).

Fixpoint for_each_h {A R : Type} (xs : list A) (body : A -> M (flow R))
  : M (flow R) :=
  match xs with
  | [] => ret Continue
  | x :: xs' =>
      bind (body x) (fun f =>
        match f with
        | Return r => ret (Return r)
        | Continue => for_each_h xs' body
        end)
  end.

(** [State.copy] (lines 29-32). *)
Definition copy_h (self : loc) : M loc :=
  bind new_state (fun new_state =>
  bind (st_items self) (fun items =>
  bind (for_each_h (R := unit) items (fun kv =>
          bind (st_setitem new_state (fst kv) (snd kv)) (fun _ => ret Continue)))
       (fun _ => ret new_state))).

(** Lines 38-62, on references. *)
Definition make_checker_h (rule : loc) : loc -> M bool :=
  fun state =>
    bind (read_rule rule) (fun r =>
    bind (match Consumes r with
          | Some consumes =>
              for_each_h (keys consumes) (fun consumedItem =>
                bind (st_getitem state consumedItem) (fun have =>
                bind (lift (getitem consumes consumedItem)) (fun need =>
                if have - need <? 0 then ret (Return false) else ret Continue)))
          | None => ret Continue
          end) (fun c =>
    match c with
    | Return b => ret b
    | Continue =>
        bind (match Requires r with
              | Some requires =>
                  for_each_h (keys requires) (fun requiredItem =>
                    bind (st_getitem state requiredItem) (fun have =>
                    if have =? 0 then ret (Return false) else ret Continue))
              | None => ret Continue
              end) (fun c' =>
        match c' with
        | Return b => ret b
        | Continue => ret true
        end)
    end)).

(** Lines 65-88, on references: reads go to [state], writes to
    [next_state]. *)
Definition make_effector_h (rule : loc) : loc -> M loc :=
  fun state =>
    bind (copy_h state) (fun next_state =>
    bind (read_rule rule) (fun r =>
    bind (match Produces r with
          | Some produces =>
              for_each_h (R := unit) (keys produces) (fun produce =>
                bind (st_getitem state produce) (fun have =>
                bind (lift (getitem produces produce)) (fun amount =>
                bind (st_setitem next_state produce (have + amount)) (fun _ =>
                ret Continue))))
          | None => ret Continue
          end) (fun _ =>
    bind (match Consumes r with
          | Some consumes =>
              for_each_h (R := unit) (keys consumes) (fun consume =>
                bind (st_getitem state consume) (fun have =>
                bind (lift (getitem consumes consume)) (fun amount =>
                bind (st_setitem next_state consume (have - amount)) (fun _ =>
                ret Continue))))
          | None => ret Continue
          end) (fun _ =>
    ret next_state)))).

Record Recipe_h : Type := {
  name_h : string;
  check_h : loc -> M bool;
  effect_h : loc -> M loc;
  cost_h : Z
}.

(** Lines 203-208: the closures capture the rule object, the cost is its
    [Time] when the recipe is built. *)
Definition make_recipe_h (h : store) (spec : string * loc) : Recipe_h :=
  {| name_h := fst spec;
     check_h := make_checker_h (snd spec);
     effect_h := make_effector_h (snd spec);
     cost_h := Time (rule_at h (snd spec)) |}.

(** The same recipe on values. *)
Definition recipe_of (h : store) (spec : string * loc) : Recipe :=
  make_recipe (fst spec) (rule_at h (snd spec)).

(** Lines 107-113, on references; the generator run to its end. *)
Fixpoint graph_h (all_recipes : list Recipe_h) (state : loc) (h : store)
  : store * generated (string * loc * Z) :=
  match all_recipes with
  | [] => (h, ([], None))
  | r :: rest =>
      match check_h r state h with
      | (h1, Raise e) => (h1, ([], Some e))
      | (h1, Ok false) => graph_h rest state h1
      | (h1, Ok true) =>
          match effect_h r state h1 with
          | (h2, Raise e) => (h2, ([], Some e))
          | (h2, Ok next_state) =>
              let '(h3, g) := graph_h rest state h2 in
              (h3, yield (name_h r, next_state, cost_h r) g)
          end
      end
  end.

(** A yielded triple with the state it refers to. *)
Definition contents (h : store) (y : string * loc * Z) : string * State * Z :=
  (fst (fst y), state_at h (snd (fst y)), snd y).


(** A store whose newest state is [top]. *)
Definition grown (pre : list State) (top : State) (rls : list Rule) : store :=
  {| states := pre ++ [top]; rules := rls |}.

End Heap.

(** ** Vocabulary of the statements *)

(** [amount d k]: the quantity [d[k]] of a key that is there. *)
Definition amount (d : dict Z) (k : string) : Z := default 0 (lookup_key d k).

(** The items a rule mentions. *)
Definition clause {V : Type} (c : option (dict V)) : dict V := default [] c.

Definition rule_items (rule : Rule) : list string :=
  keys (clause (Requires rule)) ++ keys (clause (Consumes rule))
  ++ keys (clause (Produces rule)).

(** [write_all f ks d]: [d[k] = f k] for each [k] of [ks], in order. *)
Definition write_all (f : string -> Z) (ks : list string) (d : State) : State :=
  fold_left (fun acc k => setitem acc k (f k)) ks d.

(** [holds st r]: the check of [r] returns [True] on [st]. *)
Definition holds (st : State) (r : Recipe) : bool :=
  match check r st with
  | Ok true => true
  | _ => false
  end.

(** A three-way comparison of a total order. *)
Record total_cmp {A : Type} (cmp : A -> A -> comparison) : Prop := {
  cmp_eq : forall x y, cmp x y = Eq -> x = y;
  cmp_opp : forall x y, cmp y x = CompOpp (cmp x y);
  cmp_lt_trans : forall x y z, cmp x y = Lt -> cmp y z = Lt -> cmp x z = Lt
}.

(** ** Sample data *)

(** The scenario of one recipe that turns a log into four planks. *)
Definition craft_plank : Rule :=
  {| Requires := None;
     Consumes := Some [("wood", 1)]%string;
     Produces := Some [("plank", 4)]%string;
     Time := 1 |}.

Definition four_planks : State := [("wood", 0); ("plank", 4)]%string.

(** A rule with all three clauses. *)
Definition craft_stick : Rule :=
  {| Requires := Some [("bench", true)]%string;
     Consumes := Some [("plank", 2)]%string;
     Produces := Some [("stick", 4)]%string;
     Time := 1 |}.

Definition no_bench : State := [("bench", 0); ("plank", 2); ("stick", 0)]%string.

Definition with_bench : State := [("bench", 1); ("plank", 2); ("stick", 0)]%string.

(** A rule that gives back more of what it takes. *)
Definition saw_plank : Rule :=
  {| Requires := None;
     Consumes := Some [("plank", 1)]%string;
     Produces := Some [("plank", 4)]%string;
     Time := 1 |}.

Definition one_plank : State := [("plank", 1)]%string.

(** No tool but a second wooden pickaxe. *)
Definition two_pickaxes : State :=
  [("bench", 0); ("wooden_pickaxe", 2); ("wooden_axe", 0); ("stone_axe", 0);
   ("stone_pickaxe", 0); ("iron_pickaxe", 0); ("iron_axe", 0);
   ("furnace", 0)]%string.

(** Bare hands: a log, no bench, and a goal of one bench that no recipe
    can reach. *)
Definition a_log : State := [("bench", 0); ("wood", 1); ("plank", 0)]%string.

Definition planks_only : list Recipe := [make_recipe "craft plank" craft_plank].

Definition want_bench : dict Z := [("bench", 1)]%string.

Definition want_planks : dict Z := [("plank", 4)]%string.

Definition want_log : dict Z := [("wood", 1)]%string.

(** A clock that advances by one microsecond at each reading, and a limit
    of thirty seconds in microseconds. *)
Definition microseconds (k : nat) : Z := Z.of_nat k.

Definition thirty_seconds : Z := 30000000.

(** A store with that state and that rule. *)
Definition a_store : Heap.store :=
  {| Heap.states := [a_log]; Heap.rules := [craft_plank] |}.

(** ** The rest of the program *)

(** [State.__key] (lines 20-21): [tuple(self.items())]. *)
Definition State_key (self : State) : list (string * Z) := self.

(** [State.__lt__] (lines 26-27). *)
Definition State_lt (self other : State) : bool :=
  match state_compare (State_key self) (State_key other) with
  | Lt => true
  | _ => false
  end.

(** [dict(pairs)]: the pairs are inserted in order. *)
Definition dict_of {V : Type} (pairs : list (string * V)) : dict V :=
  update [] pairs.

(** The dictionary that [State.__str__] (lines 34-35) hands to [str]. *)
Definition displayed (self : State) : dict Z :=
  dict_of (List.filter (fun item => 0 <? snd item) self).

(** The data of [Crafting.json] that the script reads (lines 187-215). *)
Record Crafting : Type := {
  Items : list string;
  Initial : dict Z;
  Goal : dict Z;
  Recipes : dict Rule
}.

(** [{key: 0 for key in Crafting['Items']}] (line 214). *)
Definition zero_inventory (items : list string) : dict Z :=
  fold_left (fun d key => setitem d key 0) items [].

(** [State(d)]: an [OrderedDict] filled from [d], in order. *)
Definition new_State (d : dict Z) : State := update [] d.

(** Lines 214-215. *)
Definition initial_state (crafting : Crafting) : State :=
  let state := new_State (zero_inventory (Items crafting)) in
  update state (Initial crafting).

(** Lines 203-208, on [Crafting['Recipes']]. *)
Definition build_recipes (recipes : dict Rule) : list Recipe :=
  map (fun nr => make_recipe (fst nr) (snd nr)) recipes.

(** The effect does not look at [Requires]. *)
Definition without_requires (rule : Rule) : Rule :=
  {| Requires := None; Consumes := Consumes rule; Produces := Produces rule;
     Time := Time rule |}.

(** The check does not look at [Produces]. *)
Definition without_produces (rule : Rule) : Rule :=
  {| Requires := Requires rule; Consumes := Consumes rule; Produces := None;
     Time := Time rule |}.

(** [steps n c]: the configuration [n] steps after [c]. *)
Fixpoint steps (graph_fn : State -> generated (string * State * Z))
    (is_goal : State -> result bool) (limit : Z)
    (heuristic_fn : State -> result prio) (clock : nat -> Z)
    (n : nat) (c : config) : config :=
  match n with
  | O => c
  | S n' =>
      steps graph_fn is_goal limit heuristic_fn clock n'
            (step graph_fn is_goal limit heuristic_fn clock c)
  end.

(** The call is over. *)
Definition finished (c : config) : bool :=
  match c with
  | Returned _ => true
  | Raised _ => true
  | _ => false
  end.

(** The tables of a search that is still going on. *)
Definition book_of (c : config) : option book :=
  match c with
  | AtLoop b _ => Some b
  | InFor b _ _ _ _ => Some b
  | Rebuild b _ _ => Some b
  | Returned _ => None
  | Raised _ => None
  end.

(** [P] holds of every state in the tables and in the queue. *)
Definition book_states (P : State -> Prop) (b : book) : Prop :=
  (forall p s, In (p, s) (queue b) -> P s) /\
  (forall s, is_Some (cost_so_far b !! s) -> P s) /\
  (forall s, is_Some (came_from b !! s) -> P s) /\
  (forall s, is_Some (actions b !! s) -> P s) /\
  (forall s p, came_from b !! s = Some (Some p) -> P p).

(** [P] holds of every state the search holds: in the tables, in the
    queue, under expansion, yielded and not yet looked at, on the path
    under construction, on the path returned. *)
Definition all_states (P : State -> Prop) (c : config) : Prop :=
  match c with
  | AtLoop b _ => book_states P b
  | InFor b _ current_state pending _ =>
      book_states P b /\ P current_state /\
      forall x, In x pending -> P (snd (fst x))
  | Rebuild b path current_state =>
      book_states P b /\ (forall x, In x path -> P (fst x)) /\
      forall s, current_state = Some s -> P s
  | Returned (Some path) => forall x, In x path -> P (fst x)
  | Returned None => True
  | Raised _ => True
  end.

(** The states that the graph leads to from the start. *)
Inductive reachable (graph_fn : State -> generated (string * State * Z))
    (start : State) : State -> Prop :=
| reach_start : reachable graph_fn start start
| reach_step (p : State) (a : string) (s : State) (c : Z) :
    reachable graph_fn start p -> In (a, s, c) (fst (graph_fn p)) ->
    reachable graph_fn start s.

(** Which tests of the loop have passed, and which one has failed when
    the search gives up. *)
Definition timing (limit : Z) (clock : nat -> Z) (c : config) : Prop :=
  match c with
  | AtLoop _ iter => forall j, (j < iter)%nat -> clock (S j) - clock 0%nat < limit
  | InFor _ iter _ _ _ =>
      forall j, (j <= iter)%nat -> clock (S j) - clock 0%nat < limit
  | Returned None =>
      exists iter, limit <= clock (S iter) - clock 0%nat /\
                   forall j, (j < iter)%nat -> clock (S j) - clock 0%nat < limit
  | _ => True
  end.

(** The entry of the start is as line 139-141 made it, and no recorded
    cost is negative. *)
Definition costs_ok (state : State) (b : book) : Prop :=
  cost_so_far b !! state = Some 0 /\ came_from b !! state = Some None /\
  actions b !! state = Some None /\
  forall s v, cost_so_far b !! s = Some v -> 0 <= v.

(** Every state costs more than its predecessor. *)
Definition descending (b : book) : Prop :=
  forall s p, came_from b !! s = Some (Some p) ->
    exists cs cp, cost_so_far b !! s = Some cs /\ cost_so_far b !! p = Some cp
                  /\ cp < cs.

(** [Q] holds of the tables and [R] of the cost of every triple that is
    still to be looked at. *)
Definition tables_inv (Q : book -> Prop) (R : Z -> Prop) (c : config) : Prop :=
  match c with
  | AtLoop b _ => Q b
  | InFor b _ _ pending _ => Q b /\ forall x, In x pending -> R (snd x)
  | Rebuild b _ _ => Q b
  | Returned _ => True
  | Raised _ => True
  end.

(** How many recorded costs are below [z]. *)
Definition below (b : book) (z : Z) : nat :=
  length (List.filter (fun kv => snd kv <? z) (map_to_list (cost_so_far b))).

(** A [Crafting.json] with the log, the plank and the bench. *)
Definition small_crafting : Crafting :=
  {| Items := ["bench"; "wood"; "plank"]%string;
     Initial := [("wood", 1)]%string;
     Goal := [("bench", 1)]%string;
     Recipes := [("craft plank", craft_plank)]%string |}.

(** A log and a plank that is owed. *)
Definition in_debt : State := [("wood", 1); ("plank", -1); ("bench", 0)]%string.

(** * Properties *)

(** ** Dictionaries *)

Section DictFacts.

Context {V : Type}.
Implicit Types (d : dict V) (k : string) (v : V).

Lemma lookup_setitem_eq d k v : lookup_key (setitem d k v) k = Some v.
Proof.
  induction d as [|[k' v'] d IH]; simpl.
  - now rewrite String.eqb_refl.
  - destruct (String.eqb k k') eqn:E; simpl; rewrite E; [reflexivity|exact IH].
Qed.

Lemma lookup_setitem_ne d k k' v :
  k <> k' -> lookup_key (setitem d k v) k' = lookup_key d k'.
Proof.
  intros Hne. induction d as [|[k0 v0] d IH]; simpl.
  - apply not_eq_sym, String.eqb_neq in Hne. now rewrite Hne.
  - destruct (String.eqb k k0) eqn:E; simpl.
    + apply String.eqb_eq in E. subst k0.
      apply not_eq_sym, String.eqb_neq in Hne. now rewrite Hne.
    + now rewrite IH.
Qed.

Lemma lookup_setitem d k k' v :
  lookup_key (setitem d k v) k' =
  if String.eqb k k' then Some v else lookup_key d k'.
Proof.
  destruct (String.eqb k k') eqn:E.
  - apply String.eqb_eq in E. subst. apply lookup_setitem_eq.
  - apply String.eqb_neq in E. now apply lookup_setitem_ne.
Qed.

Lemma lookup_key_in d k : In k (keys d) <-> lookup_key d k <> None.
Proof.
  induction d as [|[k' v'] d IH]; simpl.
  - split; [intros []|congruence].
  - destruct (String.eqb k k') eqn:E.
    + apply String.eqb_eq in E. subst. split; [discriminate|auto].
    + apply String.eqb_neq in E. rewrite <- IH. split.
      * intros [H|H]; [congruence|exact H].
      * auto.
Qed.

Lemma lookup_key_In d k v : lookup_key d k = Some v -> In (k, v) d.
Proof.
  induction d as [|[k' v'] d IH]; simpl; [discriminate|].
  destruct (String.eqb k k') eqn:E.
  - apply String.eqb_eq in E. intros [= <-]. subst. now left.
  - auto.
Qed.

Lemma keys_setitem_in d k v : In k (keys d) -> keys (setitem d k v) = keys d.
Proof.
  induction d as [|[k' v'] d IH]; simpl; [tauto|].
  destruct (String.eqb k k') eqn:E; simpl.
  - reflexivity.
  - apply String.eqb_neq in E. intros [H|H]; [congruence|].
    now rewrite IH.
Qed.

Lemma setitem_fresh d k v : ~ In k (keys d) -> setitem d k v = d ++ [(k, v)].
Proof.
  induction d as [|[k' v'] d IH]; simpl; [reflexivity|].
  intros H. destruct (String.eqb k k') eqn:E.
  - apply String.eqb_eq in E. subst k'. exfalso. apply H. now left.
  - rewrite IH; [reflexivity|]. intros Hin. apply H. now right.
Qed.

Lemma In_setitem d k v (x : string * V) :
  In x (setitem d k v) -> In x d \/ x = (k, v).
Proof.
  induction d as [|[k' v'] d IH]; simpl.
  - intros [<-|[]]. now right.
  - destruct (String.eqb k k') eqn:E; simpl.
    + apply String.eqb_eq in E. subst k'. intros [<-|H]; [now right|auto].
    + intros [<-|H]; [auto|]. destruct (IH H); auto.
Qed.

Lemma In_update d other (x : string * V) :
  In x (update d other) -> In x d \/ In x other.
Proof.
  revert d. induction other as [|[k v] other IH]; intros d; simpl; [auto|].
  unfold update in *. simpl. intros H. apply IH in H as [H|H]; [|auto].
  apply In_setitem in H as [H|H]; auto.
Qed.

Lemma update_app d other :
  NoDup (keys d ++ keys other) -> update d other = d ++ other.
Proof.
  revert d. induction other as [|[k v] other IH]; intros d Hnd; simpl.
  - now rewrite app_nil_r.
  - unfold update in *. simpl.
    assert (Hk : ~ In k (keys d)).
    { intros Hin. apply NoDup_app in Hnd as (_ & Hdis & _).
      apply list_elem_of_In in Hin. apply (Hdis k Hin).
      simpl. apply list_elem_of_here. }
    rewrite setitem_fresh by exact Hk.
    rewrite IH.
    + now rewrite <- app_assoc.
    + unfold keys in *. rewrite map_app. simpl. rewrite <- app_assoc.
      exact Hnd.
Qed.

End DictFacts.

(** A state that is a dictionary is copied item for item. *)
Lemma copy_id (st : State) : is_dict st -> copy st = st.
Proof.
  intros H. unfold copy. now rewrite update_app.
Qed.


Lemma getitem_amount (d : dict Z) k :
  lookup_key d k <> None -> getitem d k = Ok (amount d k).
Proof.
  unfold getitem, amount. destruct (lookup_key d k); [reflexivity|congruence].
Qed.

Lemma getitem_keys (d : dict Z) k : In k (keys d) -> getitem d k = Ok (amount d k).
Proof. intros H. apply getitem_amount. now apply lookup_key_in. Qed.

Lemma getitem_Ok_amount (d : dict Z) k v : getitem d k = Ok v -> v = amount d k.
Proof.
  unfold getitem, amount. destruct (lookup_key d k); simpl; congruence.
Qed.

(** ** Loops *)

Lemma for_each_test {A R : Type} (xs : list A) (body : A -> result (flow R))
    (p : A -> bool) (r : R) :
  (forall x, In x xs -> body x = Ok (if p x then Return r else Continue)) ->
  for_each xs body = Ok (if existsb p xs then Return r else Continue).
Proof.
  induction xs as [|x xs IH]; intros Hb; simpl; [reflexivity|].
  rewrite (Hb x) by now left.
  destruct (p x); simpl; [reflexivity|].
  apply IH. intros y Hy. apply Hb. now right.
Qed.

(** ** The compiled check, effect and goal *)

Lemma make_checker_bool (rule : Rule) (st : State) :
  contains st (rule_items rule) ->
  make_checker rule st =
  Ok (negb (existsb (fun k => amount st k - amount (clause (Consumes rule)) k <? 0)
                    (keys (clause (Consumes rule))))
      && negb (existsb (fun k => amount st k =? 0) (keys (clause (Requires rule))))).
Proof.
  intros Hc. unfold make_checker.
  assert (Hcons : forall k, In k (keys (clause (Consumes rule))) -> lookup_key st k <> None).
  { intros k Hk. apply Hc. unfold rule_items. rewrite !in_app_iff. auto. }
  assert (Hreq : forall k, In k (keys (clause (Requires rule))) -> lookup_key st k <> None).
  { intros k Hk. apply Hc. unfold rule_items. rewrite !in_app_iff. auto. }
  destruct (Consumes rule) as [consumes|]; simpl in *.
  - rewrite (for_each_test _ _ (fun k => amount st k - amount consumes k <? 0) false).
    2:{ intros k Hk. rewrite (getitem_amount st k) by auto. simpl.
        rewrite (getitem_keys consumes k) by auto. simpl.
        now destruct (_ <? _). }
    destruct (existsb _ (keys consumes)); simpl; [reflexivity|].
    destruct (Requires rule) as [requires|]; simpl in *; [|reflexivity].
    rewrite (for_each_test _ _ (fun k => amount st k =? 0) false).
    2:{ intros k Hk. rewrite (getitem_amount st k) by auto. simpl.
        now destruct (_ =? _). }
    now destruct (existsb _ (keys requires)).
  - destruct (Requires rule) as [requires|]; simpl in *; [|reflexivity].
    rewrite (for_each_test _ _ (fun k => amount st k =? 0) false).
    2:{ intros k Hk. rewrite (getitem_amount st k) by auto. simpl.
        now destruct (_ =? _). }
    now destruct (existsb _ (keys requires)).
Qed.

Lemma for_each_ext {A R : Type} (xs : list A) (f g : A -> result (flow R)) :
  (forall x, In x xs -> f x = g x) -> for_each xs f = for_each xs g.
Proof.
  induction xs as [|x xs IH]; intros H; simpl; [reflexivity|].
  rewrite (H x) by now left.
  destruct (g x) as [[|r]|e]; try reflexivity.
  apply IH. intros y Hy. apply H. now right.
Qed.

(** C4.  On a state that has every item the rule mentions, the compiled
    check returns a boolean.  It is [False] exactly when a required item has
    quantity zero or a consumed item is there in a smaller quantity than the
    rule consumes.  A missing clause is an empty one ([clause]): it
    constrains nothing. *)
Theorem make_checker_spec (rule : Rule) (st : State) :
  contains st (rule_items rule) ->
  (make_checker rule st = Ok false \/ make_checker rule st = Ok true) /\
  (make_checker rule st = Ok false <->
     (exists k, In k (keys (clause (Requires rule))) /\ getitem st k = Ok 0) \/
     (exists k have need,
         In k (keys (clause (Consumes rule))) /\ getitem st k = Ok have /\
         getitem (clause (Consumes rule)) k = Ok need /\ have < need)).
Proof.
  intros Hc. rewrite (make_checker_bool rule st Hc).
  assert (Hcons : forall k, In k (keys (clause (Consumes rule))) -> lookup_key st k <> None).
  { intros k Hk. apply Hc. unfold rule_items. rewrite !in_app_iff. auto. }
  assert (Hreq : forall k, In k (keys (clause (Requires rule))) -> lookup_key st k <> None).
  { intros k Hk. apply Hc. unfold rule_items. rewrite !in_app_iff. auto. }
  split.
  { destruct (_ && _); auto. }
  split.
  - intros [= H]. apply andb_false_iff in H as [H|H];
      apply negb_false_iff, existsb_exists in H as (k & Hk & Hp).
    + right. exists k, (amount st k), (amount (clause (Consumes rule)) k).
      repeat split; auto using getitem_amount, getitem_keys.
      apply Z.ltb_lt in Hp. lia.
    + left. exists k. split; [exact Hk|].
      rewrite getitem_amount by auto. apply Z.eqb_eq in Hp. now rewrite Hp.
  - intros H. f_equal. apply andb_false_iff.
    destruct H as [(k & Hk & Hg)|(k & have & need & Hk & Hg & Hn & Hlt)].
    + right. apply negb_false_iff, existsb_exists. exists k. split; [exact Hk|].
      apply getitem_Ok_amount in Hg. rewrite <- Hg. reflexivity.
    + left. apply negb_false_iff, existsb_exists. exists k. split; [exact Hk|].
      apply getitem_Ok_amount in Hg, Hn. subst. apply Z.ltb_lt. lia.
Qed.

Lemma make_goal_checker_bool (goal : dict Z) (st : State) :
  contains st (keys goal) ->
  make_goal_checker goal st =
  Ok (negb (existsb (fun k => amount st k <? amount goal k) (keys goal))).
Proof.
  intros Hc. unfold make_goal_checker.
  rewrite (for_each_test _ _ (fun k => amount st k <? amount goal k) false).
  2:{ intros k Hk. rewrite (getitem_amount st k) by auto. simpl.
      rewrite (getitem_keys goal k) by auto. simpl. now destruct (_ <? _). }
  simpl. now destruct (existsb _ _).
Qed.

(** C5.  On a state that has every item of the goal, the compiled goal
    predicate returns a boolean, [True] exactly when every item of the goal
    is there in at least the wanted quantity; a state that agrees with it on
    the items of the goal gets the same answer. *)
Theorem make_goal_checker_spec (goal : dict Z) (st : State) :
  contains st (keys goal) ->
  (make_goal_checker goal st = Ok true \/ make_goal_checker goal st = Ok false) /\
  (make_goal_checker goal st = Ok true <->
     forall k, In k (keys goal) ->
       exists have want,
         getitem st k = Ok have /\ getitem goal k = Ok want /\ want <= have) /\
  (forall st' : State,
     (forall k, In k (keys goal) -> getitem st' k = getitem st k) ->
     make_goal_checker goal st' = make_goal_checker goal st).
Proof.
  intros Hc. split; [|split].
  - rewrite (make_goal_checker_bool goal st Hc). destruct (negb _); auto.
  - rewrite (make_goal_checker_bool goal st Hc). split.
    + intros [= H] k Hk. exists (amount st k), (amount goal k).
      repeat split; auto using getitem_amount, getitem_keys.
      apply negb_true_iff in H.
      destruct (Z.ltb_spec (amount st k) (amount goal k)) as [Hlt|Hge]; [|lia].
      exfalso. apply not_true_iff_false in H. apply H.
      apply existsb_exists. exists k. split; [exact Hk|]. now apply Z.ltb_lt.
    + intros H. f_equal. apply negb_true_iff, not_true_iff_false.
      intros Hex. apply existsb_exists in Hex as (k & Hk & Hp).
      destruct (H k Hk) as (have & want & Hg & Hw & Hle).
      apply getitem_Ok_amount in Hg, Hw. subst. apply Z.ltb_lt in Hp. lia.
  - intros st' Hsame. unfold make_goal_checker. f_equal.
    apply for_each_ext. intros k Hk. now rewrite Hsame.
Qed.


Lemma for_fold_write (st : State) (d : dict Z) (op : Z -> Z -> Z)
    (ks : list string) (next : State) :
  (forall k, In k ks -> lookup_key st k <> None /\ lookup_key d k <> None) ->
  for_fold ks (fun next_state k =>
                 have ← getitem st k;
                 amt ← getitem d k;
                 Ok (setitem next_state k (op have amt))) next
  = Ok (write_all (fun k => op (amount st k) (amount d k)) ks next).
Proof.
  revert next. induction ks as [|k ks IH]; intros next H; simpl; [reflexivity|].
  destruct (H k) as [H1 H2]; [now left|].
  rewrite (getitem_amount st k H1). simpl.
  rewrite (getitem_amount d k H2). simpl.
  apply IH. intros k' Hk'. apply H. now right.
Qed.

Lemma lookup_write_all f ks (d : State) k :
  lookup_key (write_all f ks d) k =
  if existsb (String.eqb k) ks then Some (f k) else lookup_key d k.
Proof.
  revert d. induction ks as [|k0 ks IH]; intros d; simpl; [reflexivity|].
  unfold write_all in *. simpl. rewrite IH.
  destruct (existsb (String.eqb k) ks); [now rewrite orb_true_r|].
  rewrite orb_false_r, lookup_setitem, (String.eqb_sym k0 k).
  destruct (String.eqb k k0) eqn:E; [|reflexivity].
  apply String.eqb_eq in E. now subst.
Qed.

Lemma keys_write_all f ks (d : State) :
  (forall k, In k ks -> In k (keys d)) -> keys (write_all f ks d) = keys d.
Proof.
  revert d. induction ks as [|k0 ks IH]; intros d H; simpl; [reflexivity|].
  unfold write_all in *. simpl. rewrite IH.
  - apply keys_setitem_in. apply H. now left.
  - intros k Hk. rewrite keys_setitem_in by (apply H; now left).
    apply H. now right.
Qed.

Lemma In_write_all f ks (d : State) x :
  In x (write_all f ks d) -> In x d \/ exists k, In k ks /\ x = (k, f k).
Proof.
  revert d. induction ks as [|k0 ks IH]; intros d; simpl; [auto|].
  unfold write_all in *. simpl. intros H. apply IH in H as [H|(k & Hk & Hx)].
  - apply In_setitem in H as [H|H]; [auto|]. right. exists k0. auto.
  - right. exists k. auto.
Qed.


Lemma make_effector_eq (rule : Rule) (st : State) :
  contains st (rule_items rule) ->
  make_effector rule st =
  Ok (write_all (fun k => amount st k - amount (clause (Consumes rule)) k)
        (keys (clause (Consumes rule)))
        (write_all (fun k => amount st k + amount (clause (Produces rule)) k)
           (keys (clause (Produces rule))) (copy st))).
Proof.
  intros Hc. unfold make_effector.
  assert (Hcons : forall k, In k (keys (clause (Consumes rule))) -> lookup_key st k <> None).
  { intros k Hk. apply Hc. unfold rule_items. rewrite !in_app_iff. auto. }
  assert (Hprod : forall k, In k (keys (clause (Produces rule))) -> lookup_key st k <> None).
  { intros k Hk. apply Hc. unfold rule_items. rewrite !in_app_iff. auto. }
  destruct (Produces rule) as [produces|]; simpl in *.
  - rewrite (for_fold_write st produces Z.add).
    2:{ intros k Hk. split; [auto|]. now apply lookup_key_in. }
    simpl. destruct (Consumes rule) as [consumes|]; simpl in *; [|reflexivity].
    rewrite (for_fold_write st consumes Z.sub); [reflexivity|].
    intros k Hk. split; [auto|]. now apply lookup_key_in.
  - destruct (Consumes rule) as [consumes|]; simpl in *; [|reflexivity].
    rewrite (for_fold_write st consumes Z.sub); [reflexivity|].
    intros k Hk. split; [auto|]. now apply lookup_key_in.
Qed.

Lemma amount_nonneg (d : dict Z) k :
  (forall k v, In (k, v) d -> 0 <= v) -> 0 <= amount d k.
Proof.
  intros H. unfold amount. destruct (lookup_key d k) as [v|] eqn:E; simpl; [|lia].
  apply (H k). now apply lookup_key_In.
Qed.

(** C7.  With non-negative amounts in the rule and non-negative quantities
    in a state that has the rule's items, an effect applied where the check
    passed returns a state without a negative quantity. *)
Theorem effect_nonnegative (rule : Rule) (st : State) :
  (forall k v, In (k, v) (clause (Produces rule)) -> 0 <= v) ->
  (forall k v, In (k, v) (clause (Consumes rule)) -> 0 <= v) ->
  (forall k v, In (k, v) st -> 0 <= v) ->
  contains st (rule_items rule) ->
  make_checker rule st = Ok true ->
  exists st', make_effector rule st = Ok st' /\
              forall k v, In (k, v) st' -> 0 <= v.
Proof.
  intros Hprod _ Hst Hc Hchk.
  rewrite (make_effector_eq rule st Hc). eexists. split; [reflexivity|].
  rewrite (make_checker_bool rule st Hc) in Hchk.
  injection Hchk as Hchk. apply andb_true_iff in Hchk as [Hchk _].
  apply negb_true_iff in Hchk.
  intros k v Hin.
  apply In_write_all in Hin as [Hin|(k' & Hk' & [= -> ->])].
  - apply In_write_all in Hin as [Hin|(k' & Hk' & [= -> ->])].
    + apply In_update in Hin as [[]|Hin]. eauto.
    + pose proof (amount_nonneg st k' Hst).
      pose proof (amount_nonneg (clause (Produces rule)) k' Hprod). lia.
  - destruct (Z.ltb_spec (amount st k' - amount (clause (Consumes rule)) k') 0)
      as [Hlt|Hge]; [|lia].
    exfalso. apply not_true_iff_false in Hchk. apply Hchk.
    apply existsb_exists. exists k'. split; [exact Hk'|]. now apply Z.ltb_lt.
Qed.

Ltac solve_contains :=
  let k := fresh "k" in
  let H := fresh "H" in
  intros k H; simpl in H;
  repeat (destruct H as [<-|H]; [vm_compute; discriminate|]);
  destruct H.

Ltac solve_entries :=
  let k := fresh "k" in
  let v := fresh "v" in
  let H := fresh "H" in
  intros k v H; simpl in H;
  repeat (destruct H as [[= <- <-]|H]; [lia|]);
  destruct H.

Lemma make_checker_spec_witness :
  contains no_bench (rule_items craft_stick) /\
  make_checker craft_stick no_bench = Ok false.
Proof.
  assert (H : contains no_bench (rule_items craft_stick)) by solve_contains.
  split; [exact H|].
  destruct (make_checker_spec craft_stick no_bench H) as (_ & Hiff).
  apply Hiff. left. exists "bench"%string. split; [now left|reflexivity].
Defined.

Lemma make_goal_checker_spec_witness :
  contains four_planks (keys [("plank"%string, 4)]) /\
  make_goal_checker [("plank"%string, 4)] four_planks = Ok true.
Proof.
  assert (H : contains four_planks (keys [("plank"%string, 4)])) by solve_contains.
  split; [exact H|].
  destruct (make_goal_checker_spec [("plank"%string, 4)] four_planks H)
    as (_ & Hiff & _).
  apply Hiff. intros k Hk. simpl in Hk. destruct Hk as [<-|[]].
  exists 4, 4. repeat split. lia.
Defined.

Lemma effect_nonnegative_witness :
  exists st', make_effector craft_stick with_bench = Ok st' /\
              forall k v, In (k, v) st' -> 0 <= v.
Proof.
  apply (effect_nonnegative craft_stick with_bench).
  - solve_entries.
  - solve_entries.
  - solve_entries.
  - solve_contains.
  - reflexivity.
Defined.

(** What the compiled effect returns, item by item. *)
Lemma make_effector_lookup (rule : Rule) (st : State) :
  is_dict st ->
  contains st (rule_items rule) ->
  exists st',
    make_effector rule st = Ok st' /\ keys st' = keys st /\
    forall k,
      lookup_key st' k =
      if existsb (String.eqb k) (keys (clause (Consumes rule)))
      then Some (amount st k - amount (clause (Consumes rule)) k)
      else if existsb (String.eqb k) (keys (clause (Produces rule)))
           then Some (amount st k + amount (clause (Produces rule)) k)
           else lookup_key st k.
Proof.
  intros Hd Hc. rewrite (make_effector_eq rule st Hc), (copy_id st Hd).
  eexists. split; [reflexivity|]. split.
  - rewrite !keys_write_all; [reflexivity| |].
    + intros k Hk. apply lookup_key_in, Hc. unfold rule_items.
      rewrite !in_app_iff. auto.
    + intros k Hk. rewrite keys_write_all.
      * apply lookup_key_in, Hc. unfold rule_items. rewrite !in_app_iff. auto.
      * intros k' Hk'. apply lookup_key_in, Hc. unfold rule_items.
        rewrite !in_app_iff. auto.
  - intros k. now rewrite !lookup_write_all.
Qed.

(** C2.  [saw_plank] consumes one plank and produces four.  On a state with
    one plank the compiled effect returns a state with no plank: the
    consuming loop writes the input quantity minus one over what the
    producing loop wrote. *)
Theorem effect_overwrites_production :
  contains one_plank (rule_items saw_plank) /\
  make_effector saw_plank one_plank = Ok [("plank"%string, 0)] /\
  getitem one_plank "plank" = Ok 1 /\
  getitem (clause (Produces saw_plank)) "plank" = Ok 4 /\
  getitem (clause (Consumes saw_plank)) "plank" = Ok 1.
Proof.
  split; [solve_contains|]. repeat split.
Qed.

(** C3.  With two wooden pickaxes and no other tool the heuristic returns 0:
    the loop body returns at the first tool, ["bench"]. *)
Theorem heuristic_stops_at_bench :
  contains two_pickaxes tools /\
  getitem two_pickaxes "wooden_pickaxe" = Ok 2 /\
  heuristic two_pickaxes = Ok (Fin 0).
Proof.
  split; [solve_contains|]. split; reflexivity.
Qed.

(** The heuristic looks at the bench and at nothing else. *)
Lemma heuristic_bench (st : State) :
  heuristic st =
  have ← getitem st "bench"; if 1 <? have then Ok Inf else Ok (Fin 0).
Proof.
  unfold heuristic. simpl. destruct (getitem st "bench") as [v|e]; simpl; [|reflexivity].
  now destruct (1 <? v).
Qed.

(** ** The frontier and the search *)

Lemma pop_min_perm best others q x rest :
  pop_min best others q = (x, rest) ->
  Permutation (x :: rest) (best :: others ++ q).
Proof.
  revert best others. induction q as [|y q IH]; intros best others; simpl.
  - intros [= <- <-]. now rewrite app_nil_r.
  - destruct (entry_lt y best); intros H; apply IH in H; rewrite H.
    + simpl. rewrite (Permutation_middle (best :: others) q y). reflexivity.
    + simpl. constructor. apply (Permutation_middle others q y).
Qed.

(** [heappop] takes one entry out and leaves the others. *)
Lemma heappop_perm q x rest :
  heappop q = Some (x, rest) -> Permutation (x :: rest) q.
Proof.
  destruct q as [|y q]; simpl; [discriminate|].
  intros [= H]. apply pop_min_perm in H. exact H.
Qed.

Lemma heappop_In q x rest :
  heappop q = Some (x, rest) -> In x q /\ forall y, In y rest -> In y q.
Proof.
  intros H. apply heappop_perm in H. split.
  - apply (Permutation_in _ H). now left.
  - intros y Hy. apply (Permutation_in _ H). now right.
Qed.

Lemma heappop_None q : heappop q = None <-> q = [].
Proof. destruct q; simpl; split; congruence. Qed.

(** *** The order of the queue *)

Lemma cmp_refl {A : Type} (cmp : A -> A -> comparison) (x : A) :
  total_cmp cmp -> cmp x x = Eq.
Proof.
  intros H. pose proof (cmp_opp cmp H x x) as Ho.
  destruct (cmp x x); simpl in Ho; congruence.
Qed.

Lemma Z_total : total_cmp Z.compare.
Proof.
  split.
  - apply Z.compare_eq.
  - intros x y. apply Z.compare_antisym.
  - intros x y z. rewrite !Z.compare_lt_iff. lia.
Qed.

Lemma ascii_total : total_cmp Ascii.compare.
Proof.
  split.
  - intros x y. apply Ascii.compare_eq_iff.
  - intros x y. apply Ascii.compare_antisym.
  - intros x y z. unfold Ascii.compare. rewrite !N.compare_lt_iff. lia.
Qed.

Lemma string_total : total_cmp String.compare.
Proof.
  split.
  - apply String.compare_eq_iff.
  - intros x y. apply String.compare_antisym.
  - intros x. induction x as [|a x IH]; intros [|b y] [|c z]; simpl;
      try congruence.
    destruct (Ascii.compare a b) eqn:Eab; try discriminate.
    + apply (cmp_eq _ ascii_total) in Eab. subst b.
      destruct (Ascii.compare a c); try congruence. apply IH.
    + intros _. destruct (Ascii.compare b c) eqn:Ebc; try discriminate.
      * apply (cmp_eq _ ascii_total) in Ebc. subst c. now rewrite Eab.
      * now rewrite (cmp_lt_trans _ ascii_total a b c Eab Ebc).
Qed.

Lemma prio_total : total_cmp prio_compare.
Proof.
  split.
  - intros [a|] [b|]; simpl; try discriminate; [|reflexivity].
    intros H. apply Z.compare_eq in H. now subst.
  - intros [a|] [b|]; simpl; try reflexivity. apply Z.compare_antisym.
  - intros [a|] [b|] [c|]; simpl; try congruence.
    apply (cmp_lt_trans _ Z_total).
Qed.

Lemma pair_total {A B : Type} (cmpA : A -> A -> comparison)
    (cmpB : B -> B -> comparison) :
  total_cmp cmpA -> total_cmp cmpB -> total_cmp (pair_compare cmpA cmpB).
Proof.
  intros HA HB. split.
  - intros [a b] [a' b']. unfold pair_compare. simpl.
    destruct (cmpA a a') eqn:Ea; try discriminate.
    intros Eb. apply (cmp_eq _ HA) in Ea. apply (cmp_eq _ HB) in Eb. now subst.
  - intros [a b] [a' b']. unfold pair_compare. simpl.
    rewrite (cmp_opp _ HA a a').
    destruct (cmpA a a'); simpl; try reflexivity. apply (cmp_opp _ HB).
  - intros [a b] [a' b'] [a'' b'']. unfold pair_compare. simpl.
    destruct (cmpA a a') eqn:E1; try discriminate.
    + apply (cmp_eq _ HA) in E1. subst a'.
      destruct (cmpA a a''); try congruence. apply (cmp_lt_trans _ HB).
    + intros _. destruct (cmpA a' a'') eqn:E2; try discriminate.
      * apply (cmp_eq _ HA) in E2. subst a''. now rewrite E1.
      * now rewrite (cmp_lt_trans _ HA a a' a'' E1 E2).
Qed.

Lemma tuple_total {A : Type} (cmp : A -> A -> comparison) :
  total_cmp cmp -> total_cmp (tuple_compare cmp).
Proof.
  intros H. split.
  - intros x. induction x as [|a x IH]; intros [|b y]; simpl; try congruence.
    destruct (cmp a b) eqn:E; try discriminate.
    intros Hxy. apply (cmp_eq _ H) in E. subst b. f_equal. now apply IH.
  - intros x. induction x as [|a x IH]; intros [|b y]; simpl; try reflexivity.
    rewrite (cmp_opp _ H a b). destruct (cmp a b); simpl; try reflexivity.
    apply IH.
  - intros x. induction x as [|a x IH]; intros [|b y] [|c z]; simpl;
      try congruence.
    destruct (cmp a b) eqn:E1; try discriminate.
    + apply (cmp_eq _ H) in E1. subst b.
      destruct (cmp a c); try congruence. apply IH.
    + intros _. destruct (cmp b c) eqn:E2; try discriminate.
      * apply (cmp_eq _ H) in E2. subst c. now rewrite E1.
      * now rewrite (cmp_lt_trans _ H a b c E1 E2).
Qed.

Lemma entry_total : total_cmp entry_compare.
Proof.
  apply pair_total; [apply prio_total|].
  apply tuple_total, pair_total; [apply string_total|apply Z_total].
Qed.

Lemma entry_lt_irrefl x : entry_lt x x = false.
Proof. unfold entry_lt. now rewrite (cmp_refl _ x entry_total). Qed.

Lemma entry_lt_asym x y : entry_lt x y = true -> entry_lt y x = false.
Proof.
  unfold entry_lt. rewrite (cmp_opp _ entry_total x y).
  now destruct (entry_compare x y).
Qed.

Lemma entry_le_trans a b c :
  entry_lt b a = false -> entry_lt c b = false -> entry_lt c a = false.
Proof.
  unfold entry_lt. intros Hba Hcb.
  destruct (entry_compare c a) eqn:Eca; try reflexivity. exfalso.
  destruct (entry_compare c b) eqn:Ecb; try discriminate.
  - apply (cmp_eq _ entry_total) in Ecb. subst c. now rewrite Eca in Hba.
  - pose proof (cmp_opp _ entry_total c b) as Ho. rewrite Ecb in Ho. simpl in Ho.
    rewrite (cmp_lt_trans _ entry_total b c a Ho Eca) in Hba. discriminate.
Qed.

Lemma pop_min_least best others q x rest :
  pop_min best others q = (x, rest) ->
  entry_lt best x = false /\ forall y, In y q -> entry_lt y x = false.
Proof.
  revert best others. induction q as [|x0 q IH]; intros best others; simpl.
  - intros [= <- <-]. split; [apply entry_lt_irrefl|tauto].
  - destruct (entry_lt x0 best) eqn:E; intros H; apply IH in H as [H1 H2].
    + split.
      * apply (entry_le_trans x x0 best); [exact H1|now apply entry_lt_asym].
      * intros y [<-|Hy]; auto.
    + split; [exact H1|]. intros y [<-|Hy]; auto.
      apply (entry_le_trans x best x0); assumption.
Qed.

(** No entry of the queue is smaller than the one [heappop] returns. *)
Lemma heappop_least q x rest :
  heappop q = Some (x, rest) -> forall y, In y q -> entry_lt y x = false.
Proof.
  destruct q as [|x0 q]; simpl; [discriminate|].
  intros [= H] y [<-|Hy]; apply pop_min_least in H as [H1 H2]; auto.
Qed.

(** *** Invariants of the run *)

Section SearchFacts.

Variable graph_fn : State -> generated (string * State * Z).
Variable state : State.
Variable is_goal : State -> result bool.
Variable limit : Z.
Variable heuristic_fn : State -> result prio.
Variable clock : nat -> Z.

Local Abbreviation step' := (step graph_fn is_goal limit heuristic_fn clock).
Local Abbreviation run' := (run graph_fn state is_goal limit heuristic_fn clock).
Local Abbreviation search' := (search graph_fn state is_goal limit heuristic_fn clock).
Local Abbreviation config_ok' := (config_ok graph_fn).
Local Abbreviation from_callback' := (from_callback graph_fn is_goal heuristic_fn).
Local Abbreviation path_inv' := (path_inv graph_fn state is_goal).
Local Abbreviation links_ok' := (links_ok graph_fn state is_goal).

Lemma follow_Ok b s lnk previous :
  follow b s = Ok (lnk, previous) ->
  exists a, lnk = (s, a) /\ actions b !! s = Some a
            /\ came_from b !! s = Some previous.
Proof.
  unfold follow. destruct (actions b !! s) as [a|]; [|discriminate].
  destruct (came_from b !! s) as [p|]; [|discriminate].
  intros [= <- <-]. eauto.
Qed.

Lemma follow_known b s : known b s -> exists lp, follow b s = Ok lp.
Proof.
  intros (_ & [p Hp] & [a Ha]). unfold follow. rewrite Ha, Hp. eauto.
Qed.

Lemma relax_cases b cur a s c b' :
  relax heuristic_fn b cur (a, s, c) = Ok b' ->
  b' = b \/
  exists g h,
    cost_so_far b !! cur = Some g /\ heuristic_fn s = Ok h /\
    b' = {| queue := heappush (queue b) (prio_add (g + c) h, s);
            cost_so_far := <[s:=g + c]> (cost_so_far b);
            came_from := <[s:=Some cur]> (came_from b);
            actions := <[s:=Some a]> (actions b) |}.
Proof.
  unfold relax. destruct (cost_so_far b !! cur) as [g|]; [|discriminate].
  destruct (match cost_so_far b !! s with
            | Some old => g + c <? old | None => true end).
  2:{ intros [= <-]. now left. }
  destruct (heuristic_fn s) as [h|e]; simpl; [|discriminate].
  intros [= <-]. right. eauto.
Qed.

Lemma relax_Raise b cur adj e :
  known b cur ->
  relax heuristic_fn b cur adj = Raise e ->
  heuristic_fn (snd (fst adj)) = Raise e.
Proof.
  intros ([g Hg] & _). destruct adj as [[a s] c]. unfold relax. rewrite Hg.
  destruct (match cost_so_far b !! s with
            | Some old => g + c <? old | None => true end); [|discriminate].
  simpl. destruct (heuristic_fn s) as [h|e']; simpl; congruence.
Qed.

Lemma relax_ok b cur adj b' :
  tables_ok b -> known b cur ->
  relax heuristic_fn b cur adj = Ok b' ->
  tables_ok b' /\ known b' cur.
Proof.
  intros Hb Hcur. destruct adj as [[a s] c]. intros H.
  apply relax_cases in H as [->|(g & h & Hg & Hh & ->)]; [auto|].
  set (b' := {| queue := _; cost_so_far := _; came_from := _; actions := _ |}).
  assert (Hk : forall t, known b t -> known b' t).
  { intros t (H1 & H2 & H3). repeat split; simpl;
      apply lookup_insert_is_Some'; auto. }
  assert (Hs : known b' s).
  { repeat split; simpl; rewrite lookup_insert_eq; eauto. }
  destruct Hb as (Hb1 & Hb2 & Hb3 & Hb4).
  split; [|now apply Hk].
  split; [|split; [|split]]; simpl.
  - intros t Ht. apply lookup_insert_is_Some' in Ht.
    apply lookup_insert_is_Some'. destruct Ht; auto.
  - intros t Ht. apply lookup_insert_is_Some' in Ht.
    apply lookup_insert_is_Some'. destruct Ht; auto.
  - intros p t [[= <- <-]|Hin]; [exact Hs|]. apply Hk. eauto.
  - intros t p Ht. destruct (decide (s = t)) as [->|Hne].
    + rewrite lookup_insert_eq in Ht. injection Ht as <-. now apply Hk.
    + rewrite lookup_insert_ne in Ht by exact Hne. apply Hk. eauto.
Qed.

Lemma init_ok : config_ok' (init state).
Proof.
  unfold init, config_ok, tables_ok, known. simpl.
  split; [|split; [|split]].
  - intros s Hs. apply lookup_singleton_is_Some in Hs as ->.
    rewrite lookup_singleton_eq. eauto.
  - intros s Hs. apply lookup_singleton_is_Some in Hs as ->.
    rewrite lookup_singleton_eq. eauto.
  - intros p s [[= <- <-]|[]]. rewrite !lookup_singleton_eq. eauto.
  - intros s p H. apply lookup_singleton_Some in H as [_ [=]].
Qed.

Lemma step_ok c : config_ok' c -> config_ok' (step' c).
Proof.
  destruct c as [b iter|b iter cur pending ending|b path cur|r|e]; simpl;
    try exact (fun H => H).
  - intros Hb. destruct (_ <? _); [|exact I].
    destruct (heappop (queue b)) as [[[p cur] q']|] eqn:Hpop; [|exact I].
    apply heappop_In in Hpop as [Hin Hrest].
    destruct Hb as (Hb1 & Hb2 & Hb3 & Hb4).
    set (b' := {| queue := q'; cost_so_far := _ |}).
    assert (Hb' : tables_ok b').
    { split; [exact Hb1|]. split; [exact Hb2|]. split; [|exact Hb4].
      intros p0 s Hs. apply (Hb3 p0 s). now apply Hrest. }
    assert (Hcur : known b' cur) by apply (Hb3 p cur Hin).
    destruct (is_goal cur) as [[|]|e]; [| |exact I].
    + destruct (follow b' cur) as [[lnk previous]|e] eqn:Hf; [|exact I].
      simpl. split; [exact Hb'|]. intros s ->.
      apply follow_Ok in Hf as (a & _ & _ & Hp). eapply Hb4. exact Hp.
    + simpl. auto.
  - intros (Hb & Hcur & Hend). destruct pending as [|adj pending].
    + destruct ending; simpl; auto.
    + destruct (relax heuristic_fn b cur adj) as [b'|e] eqn:Hr; [|exact I].
      apply relax_ok in Hr as [Hb' Hcur']; auto. simpl. auto.
  - intros (Hb & Hcur). destruct cur as [s|]; [|exact I].
    destruct (follow b s) as [[lnk previous]|e] eqn:Hf; [|exact I].
    simpl. split; [exact Hb|]. intros t ->.
    apply follow_Ok in Hf as (a & _ & _ & Hp).
    destruct Hb as (Hb1 & Hb2 & Hb3 & Hb4). eapply Hb4. exact Hp.
Qed.

Lemma run_ok n : config_ok' (run' n).
Proof. induction n; simpl; [apply init_ok|now apply step_ok]. Qed.

Lemma step_raises c e :
  config_ok' c -> step' c = Raised e ->
  c = Raised e \/ e = IndexError \/ from_callback' e.
Proof.
  destruct c as [b iter|b iter cur pending ending|b path cur|r|e0]; simpl.
  - intros Hb. destruct (_ <? _); [|discriminate].
    destruct (heappop (queue b)) as [[[p cur] q']|] eqn:Hpop.
    2:{ intros [= <-]. auto. }
    apply heappop_In in Hpop as [Hin _].
    destruct Hb as (_ & _ & Hb3 & _). pose proof (Hb3 p cur Hin) as Hcur.
    destruct (is_goal cur) as [[|]|e0] eqn:Hg.
    + set (b' := {| queue := q'; cost_so_far := _ |}).
      destruct (follow_known b' cur Hcur) as [[lnk previous] ->]. discriminate.
    + discriminate.
    + intros [= <-]. right. right. exists cur. auto.
  - intros (Hb & Hcur & Hend). destruct pending as [|adj pending].
    + destruct ending as [e0|]; [|discriminate].
      intros [= <-]. right. right. exists cur. auto.
    + destruct (relax heuristic_fn b cur adj) as [b'|e0] eqn:Hr; [discriminate|].
      intros [= <-]. apply relax_Raise in Hr; [|exact Hcur].
      right. right. exists (snd (fst adj)). auto.
  - intros (Hb & Hcur). destruct cur as [s|]; [|discriminate].
    destruct (follow_known b s (Hcur s eq_refl)) as [[lnk previous] ->].
    discriminate.
  - discriminate.
  - intros _ [= <-]. now left.
Qed.

Lemma run_raises n e :
  run' n = Raised e -> e = IndexError \/ from_callback' e.
Proof.
  induction n as [|n IH]; simpl; [discriminate|].
  intros He. apply step_raises in He as [He|He]; auto using run_ok.
Qed.

(** *** Predecessor links *)

Lemma init_path : path_inv' (init state).
Proof.
  unfold init, path_inv, links_ok. simpl. split.
  - intros s H. apply lookup_singleton_Some in H as [<- _].
    now rewrite lookup_singleton_eq.
  - intros s p H. apply lookup_singleton_Some in H as [_ [=]].
Qed.

Lemma relax_links b cur adj b' :
  links_ok' b -> is_goal cur = Ok false ->
  In adj (fst (graph_fn cur)) ->
  relax heuristic_fn b cur adj = Ok b' ->
  links_ok' b'.
Proof.
  intros [Hl1 Hl2] Hng Hin. destruct adj as [[a s] c]. intros H.
  apply relax_cases in H as [->|(g & h & Hg & Hh & ->)]; [now split|].
  split.
  - intros t Ht. simpl in *. destruct (decide (s = t)) as [->|Hne].
    + rewrite lookup_insert_eq in Ht. discriminate.
    + rewrite lookup_insert_ne in Ht by exact Hne.
      rewrite lookup_insert_ne by exact Hne. auto.
  - intros t p Ht. simpl in *. destruct (decide (s = t)) as [->|Hne].
    + rewrite lookup_insert_eq in Ht. injection Ht as <-.
      split; [exact Hng|]. exists a. rewrite lookup_insert_eq.
      split; [reflexivity|]. now exists c.
    + rewrite lookup_insert_ne in Ht by exact Hne.
      rewrite lookup_insert_ne by exact Hne. auto.
Qed.

Lemma step_path c : path_inv' c -> path_inv' (step' c).
Proof.
  destruct c as [b iter|b iter cur pending ending|b path cur|r|e]; simpl;
    try exact (fun H => H).
  - intros Hb. destruct (_ <? _); [|exact I].
    destruct (heappop (queue b)) as [[[p cur] q']|] eqn:Hpop; [|exact I].
    set (b' := {| queue := q'; cost_so_far := _ |}).
    destruct (is_goal cur) as [[|]|e] eqn:Hg; [| |exact I].
    + destruct (follow b' cur) as [[lnk previous]|e] eqn:Hf; [|exact I].
      simpl. split; [exact Hb|].
      apply follow_Ok in Hf as (a & -> & Ha & Hp).
      exists cur, a, []. simpl. auto.
    + simpl. auto.
  - intros (Hb & Hng & Hpend). destruct pending as [|adj pending].
    + destruct ending; simpl; auto.
    + destruct (relax heuristic_fn b cur adj) as [b'|e] eqn:Hr; [|exact I].
      simpl. split; [|split; [exact Hng|]].
      * eapply relax_links; eauto. apply Hpend. now left.
      * intros x Hx. apply Hpend. now right.
  - intros (Hb & s & a & rest & Hrev & Hcf & Hac & Hch).
    destruct cur as [t|].
    + destruct (follow b t) as [[lnk previous]|e] eqn:Hf; [|exact I].
      simpl. split; [exact Hb|].
      apply follow_Ok in Hf as (a' & -> & Ha' & Hp).
      exists t, a', ((s, a) :: rest). rewrite rev_app_distr, Hrev. simpl.
      repeat split; auto.
      * destruct Hb as [_ Hl2]. apply (Hl2 s t Hcf).
      * destruct Hb as [_ Hl2]. destruct (Hl2 s t Hcf) as (_ & a0 & Ha0 & He).
        exists a0. split; [congruence|exact He].
    + simpl. rewrite Hrev. destruct Hb as [Hl1 _].
      destruct (Hl1 s Hcf) as [-> Hnone].
      assert (a = None) as -> by congruence.
      exists rest. auto.
Qed.

Lemma run_path n : path_inv' (run' n).
Proof. induction n; simpl; [apply init_path|now apply step_path]. Qed.

Lemma run_finished n m r :
  run' n = Returned r -> run' (m + n) = Returned r.
Proof. intros H. induction m as [|m IH]; simpl; [exact H|now rewrite IH]. Qed.

Lemma run_raised n m e :
  run' n = Raised e -> run' (m + n) = Raised e.
Proof. intros H. induction m as [|m IH]; simpl; [exact H|now rewrite IH]. Qed.

Lemma chain_lookup x rest :
  chain graph_fn is_goal x rest ->
  (forall (i : nat) s a s' a',
      (x :: rest) !! i = Some (s, a) -> (x :: rest) !! S i = Some (s', a') ->
      exists nm, a' = Some nm /\ edge graph_fn s nm s') /\
  (exists sn an, last (x :: rest) = Some (sn, an) /\ is_goal sn = Ok true) /\
  (forall (i : nat) s a,
      (x :: rest) !! i = Some (s, a) -> (S i < length (x :: rest))%nat ->
      is_goal s = Ok false).
Proof.
  revert x. induction rest as [|y rest IH]; intros x; simpl.
  - intros Hg. split; [|split].
    + intros i s a s' a' _ H. destruct i; discriminate.
    + destruct x as [sn an]. eauto.
    + intros i s a _ H. lia.
  - intros (Hng & (nm & Hnm & He) & Hch).
    destruct (IH y Hch) as (IH1 & (sn & an & Hl & Hgl) & IH3).
    split; [|split].
    + intros [|i] s a s' a'; simpl.
      * intros [= ->] [= ->]. simpl in *. eauto.
      * apply IH1.
    + exists sn, an. split; [|exact Hgl]. destruct rest; exact Hl.
    + intros [|i] s a; simpl.
      * intros [= ->] _. exact Hng.
      * intros H Hlt. apply (IH3 i s a H). simpl. lia.
Qed.

End SearchFacts.

(** C9.  After any number of steps of any run: every state that is a key
    of [came_from] or of [actions], or sits in the queue, is a key of
    [cost_so_far]; the state whose cost the [for] loop looks up and the
    states the path loop looks up are in the tables ([config_ok]); and an
    exception, if one was raised, is the [IndexError] of [heappop] or
    comes from a callback, never from a lookup in the tables. *)
Theorem bookkeeping_closed (graph_fn : State -> generated (string * State * Z))
    (state : State) (is_goal : State -> result bool) (limit : Z)
    (heuristic_fn : State -> result prio) (clock : nat -> Z) (n : nat) :
  config_ok graph_fn (run graph_fn state is_goal limit heuristic_fn clock n) /\
  forall e,
    run graph_fn state is_goal limit heuristic_fn clock n = Raised e ->
    e = IndexError \/ from_callback graph_fn is_goal heuristic_fn e.
Proof.
  split.
  - apply run_ok.
  - intros e. apply run_raises.
Qed.

(** C10, with the test of the loop spelled out.  If the start satisfies
    the goal and the first reading of the clock in the loop test is less
    than [limit] after the start time, the search returns [[(state, None)]]
    after the test, the pop and the path loop, whatever the graph and the
    heuristic are: the [for] over the graph is never entered. *)
Theorem goal_at_start (graph_fn : State -> generated (string * State * Z))
    (state : State) (is_goal : State -> result bool) (limit : Z)
    (heuristic_fn : State -> result prio) (clock : nat -> Z) (fuel : nat) :
  is_goal state = Ok true ->
  clock 1%nat - clock 0%nat < limit ->
  search graph_fn state is_goal limit heuristic_fn clock (fuel + 2)
    = Some (Ok (Some [(state, None)])) /\
  forall n, not_expanding (run graph_fn state is_goal limit heuristic_fn clock n).
Proof.
  intros Hg Ht.
  assert (H1 : run graph_fn state is_goal limit heuristic_fn clock 1 =
               Rebuild {| queue := []; cost_so_far := {[state := 0]};
                          came_from := {[state := None]};
                          actions := {[state := None]} |}
                       [(state, None)] None).
  { simpl. apply Z.ltb_lt in Ht. rewrite Ht, Hg. unfold follow. simpl.
    now rewrite !lookup_singleton_eq. }
  assert (H2 : run graph_fn state is_goal limit heuristic_fn clock 2
               = Returned (Some [(state, None)])).
  { change (run graph_fn state is_goal limit heuristic_fn clock 2)
      with (step graph_fn is_goal limit heuristic_fn clock
              (run graph_fn state is_goal limit heuristic_fn clock 1)).
    now rewrite H1. }
  split.
  - unfold search. now rewrite (run_finished _ _ _ _ _ _ 2 fuel _ H2).
  - intros [|[|n]]; [exact I|now rewrite H1|].
    replace (S (S n)) with (n + 2)%nat by lia.
    now rewrite (run_finished _ _ _ _ _ _ 2 n _ H2).
Qed.

Lemma graph_In (rs : list Recipe) (p : State) a s c :
  In (a, s, c) (fst (graph rs p)) ->
  exists r, In r rs /\ name r = a /\ check r p = Ok true
            /\ effect r p = Ok s /\ cost r = c.
Proof.
  induction rs as [|r rs IH]; simpl; [tauto|].
  destruct (check r p) as [[|]|e] eqn:Hc; simpl.
  - destruct (effect r p) as [s'|e] eqn:He; simpl; [|tauto].
    intros [[= <- <- <-]|H].
    + exists r. auto.
    + destruct (IH H) as (r' & Hr' & Hrest). exists r'. auto.
  - intros H. destruct (IH H) as (r' & Hr' & Hrest). exists r'. auto.
  - tauto.
Qed.

(** C6.  A path the search returns starts at [(state, None)]; each later
    element [(s', Some nm)] follows an element [(s, _)] such that [nm] names
    a recipe whose check holds at [s] and whose effect at [s] returns [s'];
    the last state satisfies the goal predicate and on every earlier one the
    predicate returns [False]. *)
Theorem search_path_chronological (all_recipes : list Recipe) (state : State)
    (is_goal : State -> result bool) (limit : Z)
    (heuristic_fn : State -> result prio) (clock : nat -> Z) (fuel : nat)
    (path : list link) :
  search (graph all_recipes) state is_goal limit heuristic_fn clock fuel
    = Some (Ok (Some path)) ->
  path !! 0%nat = Some (state, None) /\
  (forall (i : nat) s a s' a',
      path !! i = Some (s, a) -> path !! S i = Some (s', a') ->
      exists r, In r all_recipes /\ a' = Some (name r) /\
                check r s = Ok true /\ effect r s = Ok s') /\
  (exists sn an, last path = Some (sn, an) /\ is_goal sn = Ok true) /\
  (forall (i : nat) s a,
      path !! i = Some (s, a) -> (S i < length path)%nat ->
      is_goal s = Ok false).
Proof.
  unfold search. intros H.
  pose proof (run_path (graph all_recipes) state is_goal limit heuristic_fn
                clock fuel) as Hinv.
  destruct (run _ _ _ _ _ _ fuel) as [| | |[p|]|]; try discriminate.
  injection H as ->. simpl in Hinv. destruct Hinv as (rest & -> & Hch).
  apply chain_lookup in Hch as (H1 & H2 & H3).
  split; [reflexivity|]. split; [|split; [exact H2|exact H3]].
  intros i s a s' a' Hi Hi'.
  destruct (H1 i s a s' a' Hi Hi') as (nm & -> & c & Hin).
  apply graph_In in Hin as (r & Hr & <- & Hc & He & _). eauto.
Qed.

(** ** Objects: who writes where *)

Module HeapFacts.
Import Heap.

Lemma for_each_h_pure {A R : Type} (xs : list A) (body_h : A -> M (flow R))
    (body : A -> result (flow R)) (h : store) :
  (forall x, In x xs -> body_h x h = (h, body x)) ->
  for_each_h xs body_h h = (h, for_each xs body).
Proof.
  induction xs as [|x xs IH]; intros H; simpl; [reflexivity|].
  unfold bind. rewrite (H x) by now left.
  destruct (body x) as [[|r]|e]; try reflexivity.
  apply IH. intros y Hy. apply H. now right.
Qed.

(** The compiled check reads and does not write. *)
Lemma make_checker_h_pure (rl l : loc) (h : store) :
  make_checker_h rl l h = (h, make_checker (rule_at h rl) (state_at h l)).
Proof.
  unfold make_checker_h, make_checker, bind, read_rule.
  destruct (Consumes (rule_at h rl)) as [consumes|].
  - rewrite (for_each_h_pure _ _ (fun consumedItem =>
              have ← getitem (state_at h l) consumedItem;
              need ← getitem consumes consumedItem;
              if have - need <? 0 then Ok (Return false) else Ok Continue)).
    2:{ intros k _. unfold bind, st_getitem, lift.
        destruct (getitem (state_at h l) k) as [v|e]; simpl; [|reflexivity].
        destruct (getitem consumes k) as [n|e]; simpl; [|reflexivity].
        now destruct (v - n <? 0). }
    destruct (for_each _ _) as [[|b]|e]; simpl; try reflexivity.
    destruct (Requires (rule_at h rl)) as [requires|]; [|reflexivity].
    rewrite (for_each_h_pure _ _ (fun requiredItem =>
              have ← getitem (state_at h l) requiredItem;
              if have =? 0 then Ok (Return false) else Ok Continue)).
    2:{ intros k _. unfold bind, st_getitem.
        destruct (getitem (state_at h l) k) as [v|e]; simpl; [|reflexivity].
        now destruct (v =? 0). }
    now destruct (for_each _ _) as [[|b]|e].
  - simpl. destruct (Requires (rule_at h rl)) as [requires|]; [|reflexivity].
    rewrite (for_each_h_pure _ _ (fun requiredItem =>
              have ← getitem (state_at h l) requiredItem;
              if have =? 0 then Ok (Return false) else Ok Continue)).
    2:{ intros k _. unfold bind, st_getitem.
        destruct (getitem (state_at h l) k) as [v|e]; simpl; [|reflexivity].
        now destruct (v =? 0). }
    now destruct (for_each _ _) as [[|b]|e].
Qed.

Lemma state_at_old pre top rls (l : loc) :
  (l < length pre)%nat ->
  state_at (grown pre top rls) l = default [] (pre !! l).
Proof. intros H. unfold state_at, grown. simpl. now rewrite lookup_app_l. Qed.

Lemma state_at_top pre top rls :
  state_at (grown pre top rls) (length pre) = top.
Proof. unfold state_at, grown. simpl. now rewrite list_lookup_middle. Qed.

Lemma st_setitem_top pre top rls k v :
  st_setitem (length pre) k v (grown pre top rls)
  = (grown pre (setitem top k v) rls, Ok tt).
Proof.
  unfold st_setitem. rewrite state_at_top. unfold grown. simpl.
  rewrite insert_app_r_alt by done. now rewrite Nat.sub_diag.
Qed.

#[local] Arguments bind : simpl never.
#[local] Arguments ret : simpl never.
#[local] Arguments lift : simpl never.
#[local] Arguments st_getitem : simpl never.
#[local] Arguments st_setitem : simpl never.
#[local] Arguments state_at : simpl never.
#[local] Arguments grown : simpl never.

Lemma rule_at_grown pre top rls rl :
  rule_at (grown pre top rls) rl = rule_at {| states := pre; rules := rls |} rl.
Proof. reflexivity. Qed.

Lemma bind_eq {A B : Type} (m : M A) (f : A -> M B) (h : store) :
  bind m f h = match m h with
               | (h', Ok a) => f a h'
               | (h', Raise e) => (h', Raise e)
               end.
Proof. reflexivity. Qed.

Lemma copy_loop_h pre rls (items : list (string * Z)) (top : State) :
  for_each_h (R := unit) items (fun kv =>
      bind (st_setitem (length pre) (fst kv) (snd kv)) (fun _ => ret Continue))
    (grown pre top rls)
  = (grown pre (update top items) rls, Ok Continue).
Proof.
  revert top. induction items as [|[k v] items IH]; intros top.
  - reflexivity.
  - cbn [for_each_h]. rewrite !bind_eq, st_setitem_top.
    unfold ret at 1. apply IH.
Qed.

(** [copy] allocates the new state and writes to it alone. *)
Lemma copy_h_grown (h : store) (l : loc) :
  (l < length (states h))%nat ->
  copy_h l h = (grown (states h) (copy (state_at h l)) (rules h),
                Ok (length (states h))).
Proof.
  intros Hl. unfold copy_h. rewrite bind_eq. unfold new_state at 1.
  change {| states := states h ++ [[]]; rules := rules h |}
    with (grown (states h) [] (rules h)).
  rewrite bind_eq. unfold st_items at 1. rewrite state_at_old by exact Hl.
  rewrite bind_eq, copy_loop_h. reflexivity.
Qed.

(** One turn of a writing loop of the effect: it reads [l], an older
    state, and writes the newest one. *)
Lemma write_body_h pre rls (l : loc) (d : dict Z) (op : Z -> Z -> Z)
    (k : string) (top : State) :
  (l < length pre)%nat ->
  bind (st_getitem l k) (fun have =>
    bind (lift (getitem d k)) (fun amt =>
    bind (st_setitem (length pre) k (op have amt)) (fun _ =>
    ret (Continue (R := unit))))) (grown pre top rls)
  = match getitem (default [] (pre !! l)) k with
    | Raise e => (grown pre top rls, Raise e)
    | Ok have =>
        match getitem d k with
        | Raise e => (grown pre top rls, Raise e)
        | Ok amt => (grown pre (setitem top k (op have amt)) rls, Ok Continue)
        end
    end.
Proof.
  intros Hl. rewrite bind_eq. unfold st_getitem at 1.
  rewrite state_at_old by exact Hl.
  destruct (getitem (default [] (pre !! l)) k) as [v|e]; [|reflexivity].
  rewrite bind_eq. unfold lift at 1.
  destruct (getitem d k) as [n|e]; [|reflexivity].
  rewrite bind_eq, st_setitem_top. reflexivity.
Qed.

Lemma write_loop_h pre rls (l : loc) (d : dict Z) (op : Z -> Z -> Z)
    (ks : list string) (top : State) :
  (l < length pre)%nat ->
  exists top' r,
    for_each_h (R := unit) ks (fun k =>
        bind (st_getitem l k) (fun have =>
        bind (lift (getitem d k)) (fun amt =>
        bind (st_setitem (length pre) k (op have amt)) (fun _ =>
        ret Continue))))
      (grown pre top rls)
    = (grown pre top' rls, r) /\
    match for_fold ks (fun next_state k =>
              have ← getitem (default [] (pre !! l)) k;
              amt ← getitem d k;
              Ok (setitem next_state k (op have amt))) top with
    | Ok t => r = Ok Continue /\ top' = t
    | Raise e => r = Raise e
    end.
Proof.
  intros Hl. revert top. induction ks as [|k ks IH]; intros top.
  - exists top, (Ok Continue). simpl. auto.
  - cbn [for_each_h for_fold]. rewrite bind_eq.
    rewrite (write_body_h pre rls l d op k top Hl).
    destruct (getitem (default [] (pre !! l)) k) as [v|e].
    2:{ exists top, (Raise e). split; reflexivity. }
    destruct (getitem d k) as [n|e].
    2:{ exists top, (Raise e). split; reflexivity. }
    apply IH.
Qed.

(** The compiled effect leaves every state that was there as it was and
    puts its result in a new one. *)
Lemma make_effector_h_grown (rl l : loc) (h : store) :
  (l < length (states h))%nat ->
  exists top' r,
    make_effector_h rl l h = (grown (states h) top' (rules h), r) /\
    match make_effector (rule_at h rl) (state_at h l) with
    | Ok s' => r = Ok (length (states h)) /\ top' = s'
    | Raise e => r = Raise e
    end.
Proof.
  intros Hl. unfold make_effector_h, make_effector.
  rewrite bind_eq, copy_h_grown by exact Hl.
  rewrite bind_eq. unfold read_rule at 1. rewrite rule_at_grown.
  change (rule_at {| states := states h; rules := rules h |} rl)
    with (rule_at h rl).
  unfold state_at.
  set (st := default [] (states h !! l)).
  set (rule := rule_at h rl).
  rewrite bind_eq.
  assert (Hprod : exists t1 r1,
    match Produces rule with
    | Some produces =>
        for_each_h (R := unit) (keys produces) (fun produce =>
          bind (st_getitem l produce) (fun have =>
          bind (lift (getitem produces produce)) (fun amount =>
          bind (st_setitem (length (states h)) produce (have + amount))
            (fun _ => ret Continue))))
    | None => ret Continue
    end (grown (states h) (copy st) (rules h))
    = (grown (states h) t1 (rules h), r1) /\
    match match Produces rule with
          | Some produces =>
              for_fold (keys produces) (fun next_state produce =>
                have ← getitem st produce;
                amount ← getitem produces produce;
                Ok (setitem next_state produce (have + amount))) (copy st)
          | None => Ok (copy st)
          end with
    | Ok t => r1 = Ok Continue /\ t1 = t
    | Raise e => r1 = Raise e
    end).
  { destruct (Produces rule) as [produces|].
    - apply (write_loop_h (states h) (rules h) l produces Z.add). exact Hl.
    - exists (copy st), (Ok Continue). auto. }
  destruct Hprod as (t1 & r1 & -> & H1).
  destruct (match Produces rule with Some _ => _ | None => _ end) as [s1|e1].
  2:{ subst r1. exists t1, (Raise e1). split; reflexivity. }
  destruct H1 as [-> ->]. rewrite bind_eq.
  assert (Hcons : exists t2 r2,
    match Consumes rule with
    | Some consumes =>
        for_each_h (R := unit) (keys consumes) (fun consume =>
          bind (st_getitem l consume) (fun have =>
          bind (lift (getitem consumes consume)) (fun amount =>
          bind (st_setitem (length (states h)) consume (have - amount))
            (fun _ => ret Continue))))
    | None => ret Continue
    end (grown (states h) s1 (rules h))
    = (grown (states h) t2 (rules h), r2) /\
    match match Consumes rule with
          | Some consumes =>
              for_fold (keys consumes) (fun next_state consume =>
                have ← getitem st consume;
                amount ← getitem consumes consume;
                Ok (setitem next_state consume (have - amount))) s1
          | None => Ok s1
          end with
    | Ok t => r2 = Ok Continue /\ t2 = t
    | Raise e => r2 = Raise e
    end).
  { destruct (Consumes rule) as [consumes|].
    - apply (write_loop_h (states h) (rules h) l consumes Z.sub). exact Hl.
    - exists s1, (Ok Continue). auto. }
  destruct Hcons as (t2 & r2 & -> & H2).
  cbn [mbind result_bind].
  destruct (match Consumes rule with Some _ => _ | None => _ end) as [s2|e2].
  2:{ subst r2. exists t2, (Raise e2). split; reflexivity. }
  destruct H2 as [-> ->]. exists s2, (Ok (length (states h))).
  split; [reflexivity|]. simpl. auto.
Qed.

Lemma rule_at_same (h h1 : store) rl :
  rules h1 = rules h -> rule_at h1 rl = rule_at h rl.
Proof. unfold rule_at. now intros ->. Qed.

Lemma state_at_ext (h1 h' : store) ext (l : loc) :
  states h' = states h1 ++ ext -> (l < length (states h1))%nat ->
  state_at h' l = state_at h1 l.
Proof.
  intros H Hl. unfold state_at. now rewrite H, lookup_app_l.
Qed.

Lemma contents_ext (h1 h' : store) ext (ys : list (string * loc * Z)) :
  states h' = states h1 ++ ext ->
  Forall (fun y => (snd (fst y) < length (states h1))%nat) ys ->
  map (contents h') ys = map (contents h1) ys.
Proof.
  intros H Hys. induction Hys as [|y ys Hy _ IH]; simpl; [reflexivity|].
  rewrite IH. unfold contents. now rewrite (state_at_ext h1 h' ext).
Qed.

(** Enumerating the graph on the reference [l]: the rules and the states
    that were there are as before, the yielded references are new, and
    what they refer to is what [graph] returns on the value of [l]. *)
Lemma graph_h_sound (h : store) (specs : list (string * loc)) :
  forall (h1 : store) (l : loc),
    rules h1 = rules h -> (l < length (states h1))%nat ->
    exists ext,
      rules (fst (graph_h (map (make_recipe_h h) specs) l h1)) = rules h /\
      states (fst (graph_h (map (make_recipe_h h) specs) l h1))
        = states h1 ++ ext /\
      Forall (fun y => (snd (fst y) <
          length (states (fst (graph_h (map (make_recipe_h h) specs) l h1))))%nat)
        (fst (snd (graph_h (map (make_recipe_h h) specs) l h1))) /\
      (map (contents (fst (graph_h (map (make_recipe_h h) specs) l h1)))
           (fst (snd (graph_h (map (make_recipe_h h) specs) l h1))),
       snd (snd (graph_h (map (make_recipe_h h) specs) l h1)))
      = graph (map (recipe_of h) specs) (state_at h1 l).
Proof.
  induction specs as [|[nm rl] specs IH]; intros h1 l Hr Hl.
  - exists []. simpl. rewrite app_nil_r. auto.
  - cbn [map graph_h graph]. cbn [make_recipe_h check_h effect_h fst snd name_h cost_h].
    cbn [recipe_of make_recipe check effect name cost fst snd].
    rewrite make_checker_h_pure, (rule_at_same h h1 rl Hr).
    destruct (make_checker (rule_at h rl) (state_at h1 l)) as [[|]|e].
    + destruct (make_effector_h_grown rl l h1 Hl) as (top & r & -> & Hm).
      rewrite (rule_at_same h h1 rl Hr) in Hm.
      destruct (make_effector (rule_at h rl) (state_at h1 l)) as [s'|e].
      2:{ subst r. exists [top]. simpl. auto. }
      destruct Hm as [-> ->].
      destruct (IH (grown (states h1) s' (rules h1)) l) as (ext & H1 & H2 & H3 & H4).
      { exact Hr. }
      { unfold grown. simpl. rewrite length_app. lia. }
      destruct (graph_h (map (make_recipe_h h) specs) l
                  (grown (states h1) s' (rules h1))) as [h3 g].
      simpl in *. exists ([s'] ++ ext). rewrite app_assoc.
      split; [exact H1|]. split; [exact H2|]. split.
      * constructor; [|exact H3]. simpl. rewrite H2, !length_app. simpl. lia.
      * rewrite (state_at_ext h1 (grown (states h1) s' (rules h1)) [s']) in H4
          by (reflexivity || exact Hl).
        rewrite <- H4. unfold yield, contents, state_at. simpl.
        rewrite H2, <- app_assoc. simpl.
        now rewrite list_lookup_middle.
    + apply IH; assumption.
    + exists []. simpl. rewrite app_nil_r. auto.
Qed.

End HeapFacts.


(** Without an exception, the graph yields one triple for each recipe whose
    check holds, in the order of the list. *)
Lemma graph_filter (rs : list Recipe) (st : State) :
  snd (graph rs st) = None ->
  map (fun y => (fst (fst y), Ok (snd (fst y)), snd y)) (fst (graph rs st))
  = map (fun r => (name r, effect r st, cost r)) (List.filter (holds st) rs).
Proof.
  induction rs as [|r rs IH]; simpl; [reflexivity|].
  unfold holds at 1.
  destruct (check r st) as [[|]|e]; simpl.
  - destruct (effect r st) as [s'|e] eqn:He; simpl; [|discriminate].
    intros H. now rewrite (IH H).
  - exact IH.
  - discriminate.
Qed.

(** Compiled recipes raise nothing on a state that has their items. *)
Lemma graph_no_exception (rules : list (string * Rule)) (st : State) :
  (forall nr, In nr rules -> contains st (rule_items (snd nr))) ->
  snd (graph (map (fun nr => make_recipe (fst nr) (snd nr)) rules) st) = None.
Proof.
  induction rules as [|[nm rule] rules IH]; intros H; simpl; [reflexivity|].
  rewrite make_checker_bool by (apply (H (nm, rule)); now left).
  assert (IH' := IH (fun nr Hnr => H nr (or_intror Hnr))).
  destruct (_ && _); [|exact IH'].
  rewrite make_effector_eq by (apply (H (nm, rule)); now left).
  exact IH'.
Qed.

(** C8.  Enumerating the graph on a state object: no rule and no state that
    was there is changed, the input state included; the triples are those of
    [graph] on the value of the state, one per recipe whose check holds, in
    the order of the recipes, and no exception on a state that has the items
    of the rules; enumerating again, on any state object of
    equal value, yields triples of equal value and leaves the first ones as
    they are. *)
Theorem graph_enumeration (h : Heap.store) (specs : list (string * Heap.loc))
    (l l2 : Heap.loc) :
  (l < length (Heap.states h))%nat ->
  let all_recipes := map (Heap.make_recipe_h h) specs in
  let st := Heap.state_at h l in
  let first := Heap.graph_h all_recipes l h in
  let h' := fst first in
  Heap.rules h' = Heap.rules h /\
  (forall l0 : Heap.loc, (l0 < length (Heap.states h))%nat ->
                         Heap.state_at h' l0 = Heap.state_at h l0) /\
  (map (Heap.contents h') (fst (snd first)), snd (snd first))
    = graph (map (Heap.recipe_of h) specs) st /\
  (snd (snd first) = None ->
   map (fun y => (fst (fst y), Ok (snd (fst y)), snd y))
       (map (Heap.contents h') (fst (snd first)))
   = map (fun r => (name r, effect r st, cost r))
         (List.filter (holds st) (map (Heap.recipe_of h) specs))) /\
  ((forall spec, In spec specs ->
      contains st (rule_items (Heap.rule_at h (snd spec)))) ->
   snd (snd first) = None) /\
  ((l2 < length (Heap.states h'))%nat -> Heap.state_at h' l2 = st ->
   let second := Heap.graph_h all_recipes l2 h' in
   (map (Heap.contents (fst second)) (fst (snd second)), snd (snd second))
     = (map (Heap.contents h') (fst (snd first)), snd (snd first)) /\
   map (Heap.contents (fst second)) (fst (snd first))
     = map (Heap.contents h') (fst (snd first))).
Proof.
  intros Hl all_recipes st first h'.
  destruct (HeapFacts.graph_h_sound h specs h l eq_refl Hl)
    as (ext & Hr & Hs & Hy & Hg).
  fold all_recipes in Hr, Hs, Hy, Hg. fold first in Hr, Hs, Hy, Hg.
  fold h' in Hr, Hs, Hy, Hg. fold st in Hg.
  split; [exact Hr|]. split; [|split; [exact Hg|split; [|split]]].
  - intros l0 Hl0. now apply (HeapFacts.state_at_ext h h' ext).
  - intros Hnone. apply (f_equal fst) in Hg as Hg1. simpl in Hg1.
    rewrite Hg1. apply graph_filter.
    apply (f_equal snd) in Hg. simpl in Hg. now rewrite <- Hg.
  - intros Hc. apply (f_equal snd) in Hg. simpl in Hg. rewrite Hg.
    unfold Heap.recipe_of.
    rewrite <- (map_map (fun spec => (fst spec, Heap.rule_at h (snd spec)))
                  (fun nr => make_recipe (fst nr) (snd nr))).
    apply graph_no_exception. intros nr Hnr.
    apply in_map_iff in Hnr as (spec & <- & Hspec). simpl. now apply Hc.
  - intros Hl2 Hst second.
    destruct (HeapFacts.graph_h_sound h specs h' l2 Hr Hl2)
      as (ext2 & Hr2 & Hs2 & Hy2 & Hg2).
    fold all_recipes in Hr2, Hs2, Hy2, Hg2. fold second in Hr2, Hs2, Hy2, Hg2.
    rewrite Hst in Hg2. split; [congruence|].
    apply (HeapFacts.contents_ext h' (fst second) ext2 _ Hs2 Hy).
Qed.

(** ** Runs on the sample data *)

(** C1.  One recipe, a log, and a goal that cannot be reached: the third
    test of the loop finds three microseconds elapsed out of thirty seconds
    and an empty queue, and [heappop] raises [IndexError]; the search does
    not return its failure value. *)
Theorem empty_frontier_raises :
  microseconds 3 - microseconds 0 < thirty_seconds /\
  forall k : nat,
    search (graph planks_only) a_log (make_goal_checker want_bench)
           thirty_seconds heuristic microseconds (k + 6)
    = Some (Raise IndexError).
Proof.
  split; [reflexivity|]. intros k. unfold search.
  rewrite (run_raised _ _ _ _ _ _ 6 k IndexError); [reflexivity|].
  vm_compute. reflexivity.
Qed.

(** C10, counterexample.  A positive limit is not enough: with a limit of
    one microsecond the first test of the loop already finds one microsecond
    elapsed, and the search returns its failure value although the start
    satisfies the goal. *)
Lemma goal_at_start_after_limit :
  0 < 1 /\
  make_goal_checker want_log a_log = Ok true /\
  search (graph planks_only) a_log (make_goal_checker want_log) 1
         heuristic microseconds 1 = Some (Ok None) /\
  forall fuel : nat,
    search (graph planks_only) a_log (make_goal_checker want_log) 1
           heuristic microseconds fuel
    <> Some (Ok (Some [(a_log, None)])).
Proof.
  split; [lia|]. split; [reflexivity|]. split; [reflexivity|].
  intros [|fuel]; [discriminate|].
  unfold search. replace (S fuel) with (fuel + 1)%nat by lia.
  rewrite (run_finished _ _ _ _ _ _ 1 fuel None); [discriminate|].
  reflexivity.
Qed.

Lemma goal_at_start_witness :
  search (graph planks_only) a_log (make_goal_checker want_log)
         thirty_seconds heuristic microseconds 2
  = Some (Ok (Some [(a_log, None)])).
Proof.
  refine (proj1 (goal_at_start (graph planks_only) a_log
                   (make_goal_checker want_log) thirty_seconds heuristic
                   microseconds 0 _ _)).
  - reflexivity.
  - reflexivity.
Defined.

Lemma search_path_chronological_witness :
  exists sn an,
    last [(a_log, None);
          ([("bench", 0); ("wood", 0); ("plank", 4)]%string, Some "craft plank"%string)]
      = Some (sn, an) /\
    make_goal_checker want_planks sn = Ok true.
Proof.
  refine (proj1 (proj2 (proj2
    (search_path_chronological planks_only a_log (make_goal_checker want_planks)
       thirty_seconds heuristic microseconds 6 _ _)))).
  
  vm_compute. reflexivity.
Defined.

Lemma graph_enumeration_witness :
  Heap.state_at
    (fst (Heap.graph_h (map (Heap.make_recipe_h a_store) [("craft plank"%string, 0%nat)])
            0%nat a_store)) 0%nat
  = a_log.
Proof.
  refine (proj1 (proj2
    (graph_enumeration a_store [("craft plank"%string, 0%nat)] 0%nat 1%nat _)) 0%nat _).
  - simpl. lia.
  - simpl. lia.
Defined.

(** * Further properties *)

(** ** Errors and edge cases of the compiled functions *)

Lemma getitem_Raise {V : Type} (d : dict V) k e :
  getitem d k = Raise e -> e = KeyError_item k /\ lookup_key d k = None.
Proof.
  unfold getitem. destruct (lookup_key d k); [discriminate|].
  intros [= <-]. auto.
Qed.

Lemma getitem_Ok {V : Type} (d : dict V) k v :
  getitem d k = Ok v <-> lookup_key d k = Some v.
Proof.
  unfold getitem. destruct (lookup_key d k); split; congruence.
Qed.

Lemma for_each_Raise {A R : Type} (xs : list A) (body : A -> result (flow R)) e :
  for_each xs body = Raise e -> exists x, In x xs /\ body x = Raise e.
Proof.
  induction xs as [|x xs IH]; simpl; [discriminate|].
  destruct (body x) as [[|r]|e'] eqn:E.
  - intros H. destruct (IH H) as (y & Hy & Hb). eauto.
  - discriminate.
  - intros [= <-]. eauto.
Qed.

Lemma for_each_Continue {A R : Type} (xs : list A) (body : A -> result (flow R)) :
  for_each xs body = Ok Continue <-> forall x, In x xs -> body x = Ok Continue.
Proof.
  induction xs as [|x xs IH]; simpl.
  - split; [intros _ x []|reflexivity].
  - destruct (body x) as [[|r]|e'] eqn:E.
    + rewrite IH. split.
      * intros H y [<-|Hy]; auto.
      * intros H y Hy. apply H. now right.
    + split; [discriminate|]. intros H. specialize (H x (or_introl eq_refl)).
      congruence.
    + split; [discriminate|]. intros H. specialize (H x (or_introl eq_refl)).
      congruence.
Qed.

Lemma for_each_Return {A R : Type} (xs : list A) (body : A -> result (flow R)) r :
  for_each xs body = Ok (Return r) -> exists x, In x xs /\ body x = Ok (Return r).
Proof.
  induction xs as [|x xs IH]; simpl; [discriminate|].
  destruct (body x) as [[|r']|e'] eqn:E.
  - intros H. destruct (IH H) as (y & Hy & Hb). eauto.
  - intros [= <-]. eauto.
  - discriminate.
Qed.

Lemma for_fold_Raise {A S : Type} (xs : list A) (body : S -> A -> result S) s e :
  for_fold xs body s = Raise e -> exists x s0, In x xs /\ body s0 x = Raise e.
Proof.
  revert s. induction xs as [|x xs IH]; intros s; simpl; [discriminate|].
  destruct (body s x) as [s'|e'] eqn:E.
  - intros H. destruct (IH s' H) as (y & s0 & Hy & Hb). eauto.
  - intros [= <-]. eauto.
Qed.

Lemma for_fold_Ok {A S : Type} (xs : list A) (body : S -> A -> result S) s s' :
  for_fold xs body s = Ok s' ->
  forall x, In x xs -> exists s0 s1, body s0 x = Ok s1.
Proof.
  revert s. induction xs as [|x xs IH]; intros s; simpl; [intros _ y []|].
  destruct (body s x) as [s1|e'] eqn:E; [|discriminate].
  intros H y [<-|Hy]; eauto.
Qed.

(** The compiled check raises nothing but the [KeyError] of an item of its
    [Consumes] or [Requires] clause that the state does not have. *)
Theorem make_checker_raises (rule : Rule) (st : State) (e : exn) :
  make_checker rule st = Raise e ->
  exists k, e = KeyError_item k /\ lookup_key st k = None /\
            In k (keys (clause (Consumes rule)) ++ keys (clause (Requires rule))).
Proof.
  unfold make_checker. intros H.
  destruct (Consumes rule) as [consumes|] eqn:EC; simpl in H.
  - destruct (for_each (keys consumes) _) as [[|b]|e1] eqn:E1; simpl in H.
    + destruct (Requires rule) as [requires|] eqn:ER; simpl in H; [|discriminate].
      destruct (for_each (keys requires) _) as [[|b]|e2] eqn:E2; simpl in H;
        try discriminate.
      injection H as ->. apply for_each_Raise in E2 as (k & Hk & Hb).
      destruct (getitem st k) as [v|e'] eqn:Eg; simpl in Hb.
      * destruct (v =? 0); discriminate.
      * injection Hb as ->. apply getitem_Raise in Eg as [-> Hn].
        exists k. rewrite in_app_iff. auto.
    + discriminate.
    + injection H as ->. apply for_each_Raise in E1 as (k & Hk & Hb).
      destruct (getitem st k) as [v|e'] eqn:Eg; simpl in Hb.
      * rewrite (getitem_keys consumes k Hk) in Hb. simpl in Hb.
        destruct (_ <? 0); discriminate.
      * injection Hb as ->. apply getitem_Raise in Eg as [-> Hn].
        exists k. rewrite in_app_iff. auto.
  - destruct (Requires rule) as [requires|] eqn:ER; simpl in H; [|discriminate].
    destruct (for_each (keys requires) _) as [[|b]|e2] eqn:E2; simpl in H;
      try discriminate.
    injection H as ->. apply for_each_Raise in E2 as (k & Hk & Hb).
    destruct (getitem st k) as [v|e'] eqn:Eg; simpl in Hb.
    + destruct (v =? 0); discriminate.
    + injection Hb as ->. apply getitem_Raise in Eg as [-> Hn].
      exists k. auto.
Qed.

Lemma contains_app {V : Type} (d : dict V) (xs ys : list string) :
  contains d (xs ++ ys) <-> contains d xs /\ contains d ys.
Proof.
  unfold contains. split.
  - intros H. split; intros k Hk; apply H; rewrite in_app_iff; auto.
  - intros [H1 H2] k Hk. apply in_app_iff in Hk as [Hk|Hk]; auto.
Qed.

Lemma make_effector_eq_clauses (rule : Rule) (st : State) :
  contains st (keys (clause (Produces rule)) ++ keys (clause (Consumes rule))) ->
  make_effector rule st =
  Ok (write_all (fun k => amount st k - amount (clause (Consumes rule)) k)
        (keys (clause (Consumes rule)))
        (write_all (fun k => amount st k + amount (clause (Produces rule)) k)
           (keys (clause (Produces rule))) (copy st))).
Proof.
  intros Hc. apply (make_effector_eq (without_requires rule) st).
  unfold rule_items. simpl. apply contains_app in Hc as [Hp Hcn].
  intros k Hk. apply in_app_iff in Hk as [Hk|Hk]; auto.
Qed.

Lemma write_body_Ok (st : State) (d : dict Z) (op : Z -> Z -> Z) (s0 s1 : State) k :
  (have ← getitem st k; amt ← getitem d k; Ok (setitem s0 k (op have amt)))
    = Ok s1 -> lookup_key st k <> None.
Proof.
  destruct (getitem st k) as [v|e] eqn:E; simpl; [|discriminate].
  intros _. apply getitem_Ok in E. congruence.
Qed.

Lemma write_body_Raise (st : State) (d : dict Z) (op : Z -> Z -> Z) (s0 : State) k e :
  In k (keys d) ->
  (have ← getitem st k; amt ← getitem d k; Ok (setitem s0 k (op have amt)))
    = Raise e -> e = KeyError_item k /\ lookup_key st k = None.
Proof.
  intros Hk. destruct (getitem st k) as [v|e'] eqn:E; simpl.
  - rewrite (getitem_keys d k Hk). discriminate.
  - intros [= <-]. now apply getitem_Raise.
Qed.

Ltac case_fold H E :=
  match type of H with
  | context [for_fold ?xs ?f ?s] =>
      let r := fresh "r" in
      destruct (for_fold xs f s) as [r|r] eqn:E; simpl in H
  end.

Lemma make_effector_Ok_contains (rule : Rule) (st st' : State) :
  make_effector rule st = Ok st' ->
  contains st (keys (clause (Produces rule)) ++ keys (clause (Consumes rule))).
Proof.
  intros H. unfold make_effector in H. apply contains_app.
  destruct (Produces rule) as [produces|]; simpl in *.
  - case_fold H E1; [|discriminate].
    split.
    { intros k Hk. destruct (for_fold_Ok _ _ _ _ E1 k Hk) as (s0 & s2 & Hb).
      now apply write_body_Ok in Hb. }
    destruct (Consumes rule) as [consumes|]; simpl in *; [|intros k []].
    case_fold H E3; [|discriminate].
    intros k Hk. destruct (for_fold_Ok _ _ _ _ E3 k Hk) as (s0 & s2 & Hb).
    now apply write_body_Ok in Hb.
  - split; [intros k []|].
    destruct (Consumes rule) as [consumes|]; simpl in *; [|intros k []].
    case_fold H E3; [|discriminate].
    intros k Hk. destruct (for_fold_Ok _ _ _ _ E3 k Hk) as (s0 & s2 & Hb).
    now apply write_body_Ok in Hb.
Qed.

Lemma make_effector_Raise (rule : Rule) (st : State) (e : exn) :
  make_effector rule st = Raise e ->
  exists k, e = KeyError_item k /\ lookup_key st k = None /\
            In k (keys (clause (Produces rule)) ++ keys (clause (Consumes rule))).
Proof.
  intros H. unfold make_effector in H.
  destruct (Produces rule) as [produces|]; simpl in *.
  - case_fold H E1.
    + destruct (Consumes rule) as [consumes|]; simpl in *; [|discriminate].
      case_fold H E3; [discriminate|].
      injection H as ->. apply for_fold_Raise in E3 as (k & s0 & Hk & Hb).
      apply write_body_Raise in Hb as [-> Hn]; [|exact Hk].
      exists k. rewrite in_app_iff. auto.
    + injection H as ->. apply for_fold_Raise in E1 as (k & s0 & Hk & Hb).
      apply write_body_Raise in Hb as [-> Hn]; [|exact Hk].
      exists k. rewrite in_app_iff. auto.
  - destruct (Consumes rule) as [consumes|]; simpl in *; [|discriminate].
    case_fold H E3; [discriminate|].
    injection H as ->. apply for_fold_Raise in E3 as (k & s0 & Hk & Hb).
    apply write_body_Raise in Hb as [-> Hn]; [|exact Hk].
    exists k. auto.
Qed.

Lemma make_effector_keys (rule : Rule) (st st' : State) :
  is_dict st -> make_effector rule st = Ok st' -> keys st' = keys st.
Proof.
  intros Hd H. pose proof (make_effector_Ok_contains rule st st' H) as Hc.
  rewrite (make_effector_eq_clauses rule st Hc), (copy_id st Hd) in H.
  injection H as <-. apply contains_app in Hc as [Hp Hcn].
  rewrite !keys_write_all; [reflexivity| |].
  - intros k Hk. now apply lookup_key_in, Hp.
  - intros k Hk. rewrite keys_write_all.
    + now apply lookup_key_in, Hcn.
    + intros k' Hk'. now apply lookup_key_in, Hp.
Qed.

(** The compiled effect returns a state exactly when the input has every
    item of [Produces] and [Consumes]; otherwise it raises the [KeyError]
    of such an item that is missing. *)
Theorem make_effector_defined (rule : Rule) (st : State) :
  ((exists st', make_effector rule st = Ok st') <->
   contains st (keys (clause (Produces rule)) ++ keys (clause (Consumes rule)))) /\
  (forall e, make_effector rule st = Raise e ->
     exists k, e = KeyError_item k /\ lookup_key st k = None /\
               In k (keys (clause (Produces rule)) ++ keys (clause (Consumes rule)))).
Proof.
  split; [split|].
  - intros [st' H]. now apply (make_effector_Ok_contains rule st st').
  - intros Hc. rewrite (make_effector_eq_clauses rule st Hc). eauto.
  - intros e. apply make_effector_Raise.
Qed.

(** An effect that returns keeps the items of a dictionary state: the
    same keys in the same order, none added, none removed. *)
Theorem effect_keeps_items (rule : Rule) (st st' : State) :
  is_dict st -> make_effector rule st = Ok st' ->
  keys st' = keys st /\ is_dict st'.
Proof.
  intros Hd H. pose proof (make_effector_keys rule st st' Hd H) as Hk.
  split; [exact Hk|]. unfold is_dict. now rewrite Hk.
Qed.

Lemma make_goal_checker_Raise (goal : dict Z) (st : State) (e : exn) :
  make_goal_checker goal st = Raise e ->
  exists k, e = KeyError_item k /\ lookup_key st k = None /\ In k (keys goal).
Proof.
  unfold make_goal_checker. intros H.
  destruct (for_each (keys goal) _) as [[|b]|e1] eqn:E1; simpl in H;
    try discriminate.
  injection H as ->. apply for_each_Raise in E1 as (k & Hk & Hb).
  destruct (getitem st k) as [v|e'] eqn:Eg; simpl in Hb.
  - rewrite (getitem_keys goal k Hk) in Hb. simpl in Hb.
    destruct (_ <? _); discriminate.
  - injection Hb as ->. apply getitem_Raise in Eg as [-> Hn]. eauto.
Qed.

(** The goal predicate raises nothing but the [KeyError] of a goal item
    that the state does not have, and it is monotone: a state that has the
    goal items in quantities at least those of a state satisfying the goal
    satisfies it too. *)
Theorem goal_checker_monotone (goal : dict Z) (st st' : State) :
  (forall e, make_goal_checker goal st = Raise e ->
     exists k, e = KeyError_item k /\ lookup_key st k = None /\ In k (keys goal)) /\
  (make_goal_checker goal st = Ok true ->
   contains st' (keys goal) ->
   (forall k, In k (keys goal) -> amount st k <= amount st' k) ->
   make_goal_checker goal st' = Ok true).
Proof.
  split; [intros e; apply make_goal_checker_Raise|].
  intros H Hc Hle.
  assert (Hst : contains st (keys goal)).
  { intros k Hk Hn. unfold make_goal_checker in H.
    destruct (for_each (keys goal) _) as [[|b]|e1] eqn:E1; simpl in H;
      try discriminate.
    - apply for_each_Continue with (x := k) in E1; [|exact Hk].
      unfold getitem in E1. rewrite Hn in E1. discriminate.
    - injection H as ->. apply for_each_Return in E1 as (x & _ & Hb).
      destruct (getitem st x) as [v|e']; simpl in Hb; [|discriminate].
      destruct (getitem goal x) as [w|e']; simpl in Hb; [|discriminate].
      destruct (v <? w); discriminate. }
  rewrite (make_goal_checker_bool goal st Hst) in H.
  rewrite (make_goal_checker_bool goal st' Hc). f_equal.
  injection H as H. apply negb_true_iff in H. apply negb_true_iff.
  apply not_true_iff_false. intros Hex.
  apply existsb_exists in Hex as (k & Hk & Hlt).
  apply not_true_iff_false in H. apply H. apply existsb_exists.
  exists k. split; [exact Hk|]. apply Z.ltb_lt in Hlt. apply Z.ltb_lt.
  specialize (Hle k Hk). lia.
Qed.

Lemma make_checker_bool_clauses (rule : Rule) (st : State) :
  contains st (keys (clause (Consumes rule)) ++ keys (clause (Requires rule))) ->
  make_checker rule st =
  Ok (negb (existsb (fun k => amount st k - amount (clause (Consumes rule)) k <? 0)
                    (keys (clause (Consumes rule))))
      && negb (existsb (fun k => amount st k =? 0) (keys (clause (Requires rule))))).
Proof.
  intros Hc. apply (make_checker_bool (without_produces rule) st).
  unfold rule_items. simpl. rewrite app_nil_r.
  apply contains_app in Hc as [H1 H2]. apply contains_app. auto.
Qed.

Lemma make_checker_true_contains (rule : Rule) (st : State) :
  make_checker rule st = Ok true ->
  contains st (keys (clause (Consumes rule)) ++ keys (clause (Requires rule))).
Proof.
  unfold make_checker. intros H. apply contains_app.
  assert (Hreq : forall c : flow bool,
    (r ← match Requires rule with
         | Some requires =>
             for_each (keys requires) (fun requiredItem =>
               have ← getitem st requiredItem;
               if have =? 0 then Ok (Return false) else Ok Continue)
         | None => Ok Continue
         end;
     match r with Return b => Ok b | Continue => Ok true end) = Ok true ->
    contains st (keys (clause (Requires rule)))).
  { intros _ Hr. destruct (Requires rule) as [requires|]; simpl in *; [|intros k []].
    destruct (for_each (keys requires) _) as [[|b]|e1] eqn:E1; simpl in Hr;
      try discriminate.
    - intros k Hk Hn. apply for_each_Continue with (x := k) in E1; [|exact Hk].
      cbv beta in E1. destruct (getitem st k) as [v|e'] eqn:Eg.
      + apply getitem_Ok in Eg. congruence.
      + discriminate.
    - injection Hr as ->. apply for_each_Return in E1 as (x & _ & Hb).
      destruct (getitem st x) as [v|e']; simpl in Hb; [|discriminate].
      destruct (v =? 0); discriminate. }
  destruct (Consumes rule) as [consumes|]; simpl in *.
  - destruct (for_each (keys consumes) _) as [[|b]|e1] eqn:E1; simpl in H;
      try discriminate.
    + split; [|now apply (Hreq Continue)].
      intros k Hk Hn. apply for_each_Continue with (x := k) in E1; [|exact Hk].
      cbv beta in E1. destruct (getitem st k) as [v|e'] eqn:Eg.
      * apply getitem_Ok in Eg. congruence.
      * discriminate.
    + injection H as ->. apply for_each_Return in E1 as (x & _ & Hb).
      destruct (getitem st x) as [v|e']; simpl in Hb; [|discriminate].
      destruct (getitem consumes x) as [w|e']; simpl in Hb; [|discriminate].
      destruct (_ <? 0); discriminate.
  - split; [intros k []|now apply (Hreq Continue)].
Qed.

Lemma make_checker_true_char (rule : Rule) (st : State) :
  make_checker rule st = Ok true <->
  (forall k, In k (keys (clause (Consumes rule))) ->
     exists v, lookup_key st k = Some v /\ amount (clause (Consumes rule)) k <= v) /\
  (forall k, In k (keys (clause (Requires rule))) ->
     exists v, lookup_key st k = Some v /\ v <> 0).
Proof.
  split.
  - intros H. pose proof (make_checker_true_contains rule st H) as Hc.
    rewrite (make_checker_bool_clauses rule st Hc) in H.
    injection H as H. apply andb_true_iff in H as [H1 H2].
    apply negb_true_iff in H1, H2. apply contains_app in Hc as [Hc1 Hc2].
    split; intros k Hk.
    + destruct (lookup_key st k) as [v|] eqn:E; [|now apply Hc1 in Hk].
      exists v. split; [reflexivity|].
      destruct (Z.ltb_spec (v - amount (clause (Consumes rule)) k) 0); [|lia].
      exfalso. apply not_true_iff_false in H1. apply H1. apply existsb_exists.
      exists k. split; [exact Hk|]. unfold amount at 1. rewrite E. simpl.
      now apply Z.ltb_lt.
    + destruct (lookup_key st k) as [v|] eqn:E; [|now apply Hc2 in Hk].
      exists v. split; [reflexivity|]. intros ->.
      apply not_true_iff_false in H2. apply H2. apply existsb_exists.
      exists k. split; [exact Hk|]. unfold amount. now rewrite E.
  - intros [H1 H2].
    assert (Hc : contains st (keys (clause (Consumes rule))
                              ++ keys (clause (Requires rule)))).
    { apply contains_app. split; intros k Hk.
      - destruct (H1 k Hk) as (v & -> & _). discriminate.
      - destruct (H2 k Hk) as (v & -> & _). discriminate. }
    rewrite (make_checker_bool_clauses rule st Hc). f_equal.
    apply andb_true_iff. split; apply negb_true_iff, not_true_iff_false;
      intros Hex; apply existsb_exists in Hex as (k & Hk & Hp).
    + destruct (H1 k Hk) as (v & Hv & Hle). unfold amount in Hp at 1.
      rewrite Hv in Hp. simpl in Hp. apply Z.ltb_lt in Hp. lia.
    + destruct (H2 k Hk) as (v & Hv & Hne). unfold amount in Hp.
      rewrite Hv in Hp. simpl in Hp. apply Z.eqb_eq in Hp. contradiction.
Qed.

(** Whatever the state has or lacks: the compiled check returns [True]
    exactly when every consumed item is there in at least the consumed
    amount and every required item is there in a quantity other than 0. *)
Theorem make_checker_true_iff (rule : Rule) (st : State) :
  make_checker rule st = Ok true <->
  (forall k, In k (keys (clause (Consumes rule))) ->
     exists v, lookup_key st k = Some v /\ amount (clause (Consumes rule)) k <= v) /\
  (forall k, In k (keys (clause (Requires rule))) ->
     exists v, lookup_key st k = Some v /\ v <> 0).
Proof. apply make_checker_true_char. Qed.

(** More never disables a recipe: if the check holds on a state whose
    required items are in non-negative quantity, it holds on every state
    that has the consumed and required items in at least those quantities. *)
Theorem checker_monotone (rule : Rule) (st st' : State) :
  make_checker rule st = Ok true ->
  (forall k, In k (keys (clause (Requires rule))) -> 0 <= amount st k) ->
  contains st' (keys (clause (Consumes rule)) ++ keys (clause (Requires rule))) ->
  (forall k, In k (keys (clause (Consumes rule)) ++ keys (clause (Requires rule))) ->
             amount st k <= amount st' k) ->
  make_checker rule st' = Ok true.
Proof.
  intros H Hpos Hc Hle. apply make_checker_true_char in H as [H1 H2].
  apply make_checker_true_char. apply contains_app in Hc as [Hc1 Hc2].
  split; intros k Hk.
  - destruct (lookup_key st' k) as [v'|] eqn:E; [|now apply Hc1 in Hk].
    exists v'. split; [reflexivity|].
    destruct (H1 k Hk) as (v & Hv & Hge).
    assert (Hkk : In k (keys (clause (Consumes rule)) ++ keys (clause (Requires rule))))
      by (apply in_app_iff; auto).
    specialize (Hle k Hkk). unfold amount in Hle at 1 2. rewrite Hv, E in Hle.
    simpl in Hle. lia.
  - destruct (lookup_key st' k) as [v'|] eqn:E; [|now apply Hc2 in Hk].
    exists v'. split; [reflexivity|].
    destruct (H2 k Hk) as (v & Hv & Hne).
    assert (Hkk : In k (keys (clause (Consumes rule)) ++ keys (clause (Requires rule))))
      by (apply in_app_iff; auto).
    specialize (Hle k Hkk). specialize (Hpos k Hk). unfold amount in Hle, Hpos.
    rewrite Hv in Hle, Hpos. rewrite E in Hle. simpl in *. lia.
Qed.

(** The heuristic looks at ["bench"] and at nothing else: states with the
    same bench entry get the same answer, which is infinite exactly when
    there is more than one bench, and the only exception is the [KeyError]
    of a state without a bench entry. *)
Theorem heuristic_only_bench (st : State) :
  (forall st' : State,
     lookup_key st' "bench" = lookup_key st "bench" -> heuristic st' = heuristic st) /\
  (heuristic st = Ok Inf <-> exists v, lookup_key st "bench" = Some v /\ 1 < v) /\
  (heuristic st = Ok (Fin 0) <-> exists v, lookup_key st "bench" = Some v /\ v <= 1) /\
  (forall e, heuristic st = Raise e <->
             e = KeyError_item "bench" /\ lookup_key st "bench" = None).
Proof.
  assert (H : forall s : State, heuristic s =
            match lookup_key s "bench" with
            | Some v => Ok (if 1 <? v then Inf else Fin 0)
            | None => Raise (KeyError_item "bench")
            end).
  { intros s. unfold heuristic. simpl. unfold getitem.
    destruct (lookup_key s "bench") as [v|]; simpl; [|reflexivity].
    now destruct (1 <? v). }
  split; [|split; [|split]].
  - intros st' Hs. now rewrite !H, Hs.
  - rewrite H. destruct (lookup_key st "bench") as [v|].
    + destruct (Z.ltb_spec 1 v); split.
      * intros _. eauto.
      * reflexivity.
      * discriminate.
      * intros (v' & [= <-] & Hlt). lia.
    + split; [discriminate|]. intros (v & [=] & _).
  - rewrite H. destruct (lookup_key st "bench") as [v|].
    + destruct (Z.ltb_spec 1 v); split.
      * discriminate.
      * intros (v' & [= <-] & Hlt). lia.
      * intros _. eauto.
      * reflexivity.
    + split; [discriminate|]. intros (v & [=] & _).
  - intros e. rewrite H. destruct (lookup_key st "bench") as [v|].
    + split; [discriminate|]. intros [_ [=]].
    + split; [intros [= <-]; auto|]. now intros [-> _].
Qed.

(** The graph yields at most one triple per recipe, under the names of
    recipes in the order of the list, and only for recipes whose check
    holds, with the state their effect returns and their cost. *)
Theorem graph_bounded (all_recipes : list Recipe) (st : State) :
  (length (fst (graph all_recipes st)) <= length all_recipes)%nat /\
  sublist (map (fun y => fst (fst y)) (fst (graph all_recipes st)))
          (map name all_recipes) /\
  Forall (fun y => exists r, In r all_recipes /\ y = (name r, snd (fst y), cost r) /\
                             check r st = Ok true /\ effect r st = Ok (snd (fst y)))
         (fst (graph all_recipes st)).
Proof.
  induction all_recipes as [|r rs (IH1 & IH2 & IH3)]; simpl.
  - split; [lia|]. split; [constructor|constructor].
  - assert (IH3' : Forall (fun y => exists r0, (r = r0 \/ In r0 rs) /\
                     y = (name r0, snd (fst y), cost r0) /\
                     check r0 st = Ok true /\ effect r0 st = Ok (snd (fst y)))
                    (fst (graph rs st))).
    { eapply Forall_impl; [exact IH3|]. intros y (r0 & Hr0 & Hy). eauto. }
    destruct (check r st) as [[|]|e] eqn:Ec; simpl.
    + destruct (effect r st) as [s'|e] eqn:Ee; simpl.
      * split; [lia|]. split; [now constructor|].
        constructor; [|exact IH3']. exists r. auto.
      * split; [lia|]. split; [apply sublist_nil_l|constructor].
    + split; [lia|]. split; [now constructor|exact IH3'].
    + split; [lia|]. split; [apply sublist_nil_l|constructor].
Qed.

Lemma keys_setitem {V : Type} (d : dict V) k v k' :
  In k' (keys (setitem d k v)) <-> k' = k \/ In k' (keys d).
Proof.
  induction d as [|[k0 v0] d IH]; simpl.
  - split; [intros [<-|[]]; auto|intros [->|[]]; auto].
  - destruct (String.eqb k k0) eqn:E; simpl.
    + apply String.eqb_eq in E. subst k0. split; [auto|]. intros [->|H]; auto.
    + rewrite IH. split; [intros [H|[H|H]]|intros [H|[H|H]]]; auto.
Qed.

Lemma is_dict_setitem {V : Type} (d : dict V) k v :
  is_dict d -> is_dict (setitem d k v).
Proof.
  unfold is_dict. induction d as [|[k0 v0] d IH]; simpl; intros Hd.
  - apply NoDup_singleton.
  - destruct (String.eqb k k0) eqn:E; simpl; [exact Hd|].
    apply NoDup_cons in Hd as [Hk0 Hd]. apply NoDup_cons. split; [|auto].
    rewrite list_elem_of_In, keys_setitem. intros [->|H].
    + now rewrite String.eqb_refl in E.
    + apply Hk0. now apply list_elem_of_In.
Qed.

Lemma is_dict_update {V : Type} (d other : dict V) :
  is_dict d -> is_dict (update d other).
Proof.
  revert d. induction other as [|[k v] other IH]; intros d Hd; [exact Hd|].
  unfold update in *. simpl. apply IH. now apply is_dict_setitem.
Qed.

Lemma keys_update {V : Type} (d other : dict V) k :
  In k (keys (update d other)) <-> In k (keys d) \/ In k (keys other).
Proof.
  revert d. induction other as [|[k0 v0] other IH]; intros d; simpl.
  - tauto.
  - unfold update in *. simpl. rewrite IH, keys_setitem. split.
    + intros [[->|H]|H]; auto.
    + intros [H|[<-|H]]; auto.
Qed.

Lemma lookup_update {V : Type} (d other : dict V) k :
  is_dict other ->
  lookup_key (update d other) k =
  match lookup_key other k with
  | Some v => Some v
  | None => lookup_key d k
  end.
Proof.
  revert d. induction other as [|[k0 v0] other IH]; intros d Hd; [reflexivity|].
  unfold update in *. simpl. apply NoDup_cons in Hd as [Hk0 Hd].
  rewrite (IH _ Hd), lookup_setitem, (String.eqb_sym k0 k).
  destruct (String.eqb k k0) eqn:E; [|reflexivity].
  apply String.eqb_eq in E. subst k0.
  destruct (lookup_key other k) eqn:El; [|reflexivity].
  exfalso. apply Hk0. apply list_elem_of_In, lookup_key_in. simpl.
  rewrite El. discriminate.
Qed.

Lemma is_dict_write_all f ks (d : State) : is_dict d -> is_dict (write_all f ks d).
Proof.
  revert d. induction ks as [|k ks IH]; intros d Hd; [exact Hd|].
  unfold write_all in *. simpl. apply IH. now apply is_dict_setitem.
Qed.

Lemma existsb_eqb_In k ks : existsb (String.eqb k) ks = true <-> In k ks.
Proof.
  rewrite existsb_exists. split.
  - intros (x & Hx & E). apply String.eqb_eq in E. now subst.
  - intros H. exists k. split; [exact H|apply String.eqb_refl].
Qed.

Lemma initial_state_facts (crafting : Crafting) :
  is_dict (Initial crafting) ->
  is_dict (initial_state crafting) /\
  (forall k, In k (keys (initial_state crafting)) <->
             In k (Items crafting) \/ In k (keys (Initial crafting))) /\
  (forall k v, lookup_key (Initial crafting) k = Some v ->
               lookup_key (initial_state crafting) k = Some v) /\
  (forall k, In k (Items crafting) -> lookup_key (Initial crafting) k = None ->
             lookup_key (initial_state crafting) k = Some 0).
Proof.
  intros Hd. unfold initial_state, new_State.
  assert (Hz : is_dict (zero_inventory (Items crafting))).
  { apply (is_dict_write_all (fun _ => 0)). apply NoDup_nil_2. }
  assert (Hlz : forall k, lookup_key (zero_inventory (Items crafting)) k =
                          if existsb (String.eqb k) (Items crafting)
                          then Some 0 else None).
  { intros k. apply (lookup_write_all (fun _ => 0)). }
  rewrite (update_app [] (zero_inventory (Items crafting))) by exact Hz.
  simpl. split; [|split; [|split]].
  - now apply is_dict_update.
  - intros k. rewrite keys_update. rewrite (lookup_key_in (zero_inventory _)), Hlz.
    destruct (existsb (String.eqb k) (Items crafting)) eqn:E.
    + apply existsb_eqb_In in E. split; [auto|]. intros _. left. discriminate.
    + split; [intros [H|H]; [done|auto]|].
      intros [H|H]; [|auto]. apply existsb_eqb_In in H. congruence.
  - intros k v Hk. rewrite lookup_update by exact Hd. now rewrite Hk.
  - intros k Hk Hn. rewrite lookup_update by exact Hd. rewrite Hn, Hlz.
    apply existsb_eqb_In in Hk. now rewrite Hk.
Qed.

Lemma state_total : total_cmp state_compare.
Proof. apply tuple_total, pair_total; [apply string_total|apply Z_total]. Qed.

(** [State.__lt__] is a strict total order on states: irreflexive,
    transitive, and one of two different states is below the other. *)
Theorem State_lt_order :
  (forall s, State_lt s s = false) /\
  (forall s t u, State_lt s t = true -> State_lt t u = true -> State_lt s u = true) /\
  (forall s t, State_lt s t = true -> State_lt t s = false) /\
  (forall s t, s <> t -> State_lt s t = true \/ State_lt t s = true).
Proof.
  unfold State_lt, State_key. split; [|split; [|split]].
  - intros s. now rewrite (cmp_refl _ s state_total).
  - intros s t u Hst Htu.
    destruct (state_compare s t) eqn:E1; try discriminate.
    destruct (state_compare t u) eqn:E2; try discriminate.
    now rewrite (cmp_lt_trans _ state_total s t u E1 E2).
  - intros s t. rewrite (cmp_opp _ state_total s t).
    now destruct (state_compare s t).
  - intros s t Hne. rewrite (cmp_opp _ state_total s t).
    destruct (state_compare s t) eqn:E; simpl; auto.
    apply (cmp_eq _ state_total) in E. contradiction.
Qed.

Lemma lookup_filter_positive (st : State) k :
  is_dict st ->
  lookup_key (List.filter (fun item => 0 <? snd item) st) k =
  match lookup_key st k with
  | Some v => if 0 <? v then Some v else None
  | None => None
  end.
Proof.
  unfold is_dict. induction st as [|[k0 v0] st IH]; simpl; [reflexivity|].
  intros Hd. apply NoDup_cons in Hd as [Hk0 Hd]. specialize (IH Hd).
  destruct (String.eqb k k0) eqn:E.
  - apply String.eqb_eq in E. subst k0.
    destruct (0 <? v0); simpl; [now rewrite String.eqb_refl|].
    rewrite IH. destruct (lookup_key st k) eqn:El; [|reflexivity].
    exfalso. apply Hk0, list_elem_of_In, lookup_key_in. simpl.
    rewrite El. discriminate.
  - destruct (0 <? v0); simpl; [rewrite E|]; exact IH.
Qed.

Lemma keys_filter_sub {V : Type} (f : string * V -> bool) (d : dict V) :
  is_dict d -> is_dict (List.filter f d).
Proof.
  unfold is_dict. induction d as [|[k v] d IH]; simpl; [auto|].
  intros Hd. apply NoDup_cons in Hd as [Hk Hd].
  destruct (f (k, v)); simpl; [|auto].
  apply NoDup_cons. split; [|auto].
  intros Hin. apply Hk. apply list_elem_of_In in Hin. apply list_elem_of_In.
  unfold keys in *. apply in_map_iff in Hin as (x & Hx & Hf).
  apply filter_In in Hf as [Hf _]. apply in_map_iff. eauto.
Qed.

(** What [str(state)] shows: the items in positive quantity, in the order
    of the state; an item at 0 or below is left out. *)
Theorem displayed_positive (st : State) :
  is_dict st ->
  displayed st = List.filter (fun item => 0 <? snd item) st /\
  forall k, lookup_key (displayed st) k =
            match lookup_key st k with
            | Some v => if 0 <? v then Some v else None
            | None => None
            end.
Proof.
  intros Hd.
  assert (H : displayed st = List.filter (fun item => 0 <? snd item) st).
  { unfold displayed, dict_of. rewrite update_app; [reflexivity|].
    simpl. now apply keys_filter_sub. }
  split; [exact H|]. intros k. rewrite H. now apply lookup_filter_positive.
Qed.

(** [State.copy] makes a new object with the items of the old one, in the
    same order, and changes no object that was there. *)
Theorem copy_fresh (h : Heap.store) (l : Heap.loc) :
  (l < length (Heap.states h))%nat ->
  is_dict (Heap.state_at h l) ->
  exists h',
    Heap.copy_h l h = (h', Ok (length (Heap.states h))) /\
    Heap.states h' = Heap.states h ++ [Heap.state_at h l] /\
    Heap.rules h' = Heap.rules h /\
    Heap.state_at h' (length (Heap.states h)) = Heap.state_at h l /\
    forall l0, (l0 < length (Heap.states h))%nat ->
               Heap.state_at h' l0 = Heap.state_at h l0.
Proof.
  intros Hl Hd. rewrite (HeapFacts.copy_h_grown h l Hl), (copy_id _ Hd).
  eexists. split; [reflexivity|]. split; [reflexivity|]. split; [reflexivity|].
  split.
  - apply HeapFacts.state_at_top.
  - intros l0 Hl0. now rewrite HeapFacts.state_at_old.
Qed.

(** The start of the script: a dictionary state with every declared item
    and every item of the initial inventory, in the initial quantity where
    one is given and 0 elsewhere. *)
Theorem initial_state_spec (crafting : Crafting) :
  is_dict (Initial crafting) ->
  is_dict (initial_state crafting) /\
  (forall k, In k (keys (initial_state crafting)) <->
             In k (Items crafting) \/ In k (keys (Initial crafting))) /\
  (forall k v, lookup_key (Initial crafting) k = Some v ->
               lookup_key (initial_state crafting) k = Some v) /\
  (forall k, In k (Items crafting) -> lookup_key (Initial crafting) k = None ->
             lookup_key (initial_state crafting) k = Some 0).
Proof. apply initial_state_facts. Qed.

(** ** More on the search *)

Section StatesFacts.

Variable graph_fn : State -> generated (string * State * Z).
Variable state : State.
Variable is_goal : State -> result bool.
Variable limit : Z.
Variable heuristic_fn : State -> result prio.
Variable clock : nat -> Z.
Variable P : State -> Prop.
Hypothesis P_start : P state.
Hypothesis P_edge :
  forall p a s c, P p -> In (a, s, c) (fst (graph_fn p)) -> P s.

Local Abbreviation step' := (step graph_fn is_goal limit heuristic_fn clock).
Local Abbreviation run' := (run graph_fn state is_goal limit heuristic_fn clock).

Lemma init_states : all_states P (init state).
Proof.
  unfold init, all_states, book_states. simpl.
  split; [|split; [|split; [|split]]].
  - intros p s [[= <- <-]|[]]. exact P_start.
  - intros s Hs. now apply lookup_singleton_is_Some in Hs as ->.
  - intros s Hs. now apply lookup_singleton_is_Some in Hs as ->.
  - intros s Hs. now apply lookup_singleton_is_Some in Hs as ->.
  - intros s p H. apply lookup_singleton_Some in H as [_ [=]].
Qed.

Lemma relax_states b cur adj b' :
  book_states P b -> P cur -> P (snd (fst adj)) ->
  relax heuristic_fn b cur adj = Ok b' -> book_states P b'.
Proof.
  intros Hb Hcur Hadj H. destruct adj as [[a s] c]. simpl in Hadj.
  apply relax_cases in H as [->|(g & h & Hg & Hh & ->)]; [exact Hb|].
  destruct Hb as (Hq & Hc & Hf & Ha & Hp).
  split; [|split; [|split; [|split]]]; simpl.
  - intros p t [[= <- <-]|Hin]; eauto.
  - intros t Ht. apply lookup_insert_is_Some' in Ht as [<-|Ht]; auto.
  - intros t Ht. apply lookup_insert_is_Some' in Ht as [<-|Ht]; auto.
  - intros t Ht. apply lookup_insert_is_Some' in Ht as [<-|Ht]; auto.
  - intros t p Ht. destruct (decide (s = t)) as [->|Hne].
    + rewrite lookup_insert_eq in Ht. now injection Ht as <-.
    + rewrite lookup_insert_ne in Ht by exact Hne. eauto.
Qed.

Lemma step_states c : all_states P c -> all_states P (step' c).
Proof.
  destruct c as [b iter|b iter cur pending ending|b path cur|[path|]|e]; simpl;
    try exact (fun H => H).
  - intros Hb. destruct (_ <? _); [|exact I].
    destruct (heappop (queue b)) as [[[p cur] q']|] eqn:Hpop; [|exact I].
    apply heappop_In in Hpop as [Hin Hrest].
    destruct Hb as (Hq & Hc & Hf & Ha & Hp).
    set (b' := {| queue := q'; cost_so_far := _ |}).
    assert (Hb' : book_states P b').
    { split; [|split; [|split; [|split]]]; auto.
      intros p0 s Hs. apply (Hq p0 s). now apply Hrest. }
    assert (Hcur : P cur) by apply (Hq p cur Hin).
    destruct (is_goal cur) as [[|]|e]; [| |exact I].
    + destruct (follow b' cur) as [[lnk previous]|e] eqn:Hfo; [|exact I].
      apply follow_Ok in Hfo as (a & -> & _ & Hprev).
      simpl. split; [exact Hb'|]. split.
      * intros x [<-|[]]. exact Hcur.
      * intros s ->. eapply Hp. exact Hprev.
    + simpl. split; [exact Hb'|]. split; [exact Hcur|].
      intros [[a s] c] Hx. simpl. eapply P_edge; eauto.
  - intros (Hb & Hcur & Hpend). destruct pending as [|adj pending].
    + destruct ending; simpl; auto.
    + destruct (relax heuristic_fn b cur adj) as [b'|e] eqn:Hr; [|exact I].
      simpl. split; [|split; [exact Hcur|]].
      * eapply relax_states; eauto. apply Hpend. now left.
      * intros x Hx. apply Hpend. now right.
  - intros (Hb & Hpath & Hcur). destruct cur as [s|].
    + destruct (follow b s) as [[lnk previous]|e] eqn:Hfo; [|exact I].
      apply follow_Ok in Hfo as (a & -> & _ & Hprev).
      simpl. split; [exact Hb|]. split.
      * intros x Hx. apply in_app_iff in Hx as [Hx|[<-|[]]]; auto.
      * intros t ->. destruct Hb as (_ & _ & _ & _ & Hp). eapply Hp. exact Hprev.
    + simpl. intros x Hx. apply Hpath. now apply in_rev.
Qed.

Lemma run_states n : all_states P (run' n).
Proof. induction n; simpl; [apply init_states|now apply step_states]. Qed.



End StatesFacts.


Lemma build_recipes_edge (recipes : dict Rule) (p : State) a s c :
  In (a, s, c) (fst (graph (build_recipes recipes) p)) ->
  exists rule, In (a, rule) recipes /\ make_checker rule p = Ok true /\
               make_effector rule p = Ok s /\ c = Time rule.
Proof.
  intros H. apply graph_In in H as (r & Hr & <- & Hc & He & <-).
  unfold build_recipes in Hr. apply in_map_iff in Hr as ([nm rule] & <- & Hin).
  simpl in *. eauto.
Qed.

(** Every state the search holds can be reached from the start along
    triples that the graph yields. *)
Theorem search_states_reachable
    (graph_fn : State -> generated (string * State * Z)) (state : State)
    (is_goal : State -> result bool) (limit : Z)
    (heuristic_fn : State -> result prio) (clock : nat -> Z) (n : nat) :
  all_states (reachable graph_fn state)
             (run graph_fn state is_goal limit heuristic_fn clock n).
Proof.
  apply run_states.
  - apply reach_start.
  - intros p a s c Hp Hin. eapply reach_step; eauto.
Qed.

(** With compiled recipes and a dictionary as the start, every state the
    search holds or returns has the items of the start, in the same
    order. *)
Theorem search_keeps_items (recipes : dict Rule) (state : State)
    (is_goal : State -> result bool) (limit : Z)
    (heuristic_fn : State -> result prio) (clock : nat -> Z) (n : nat) :
  is_dict state ->
  all_states (fun s => keys s = keys state)
    (run (graph (build_recipes recipes)) state is_goal limit heuristic_fn clock n).
Proof.
  intros Hd. apply run_states; [reflexivity|].
  intros p a s c Hp Hin. apply build_recipes_edge in Hin as (rule & _ & _ & He & _).
  rewrite <- Hp. apply (make_effector_keys rule p s); [|exact He].
  unfold is_dict. now rewrite Hp.
Qed.




(** *** The clock *)

Section TimingFacts.

Variable graph_fn : State -> generated (string * State * Z).
Variable state : State.
Variable is_goal : State -> result bool.
Variable limit : Z.
Variable heuristic_fn : State -> result prio.
Variable clock : nat -> Z.

Local Abbreviation step' := (step graph_fn is_goal limit heuristic_fn clock).
Local Abbreviation run' := (run graph_fn state is_goal limit heuristic_fn clock).

Lemma step_timing c : timing limit clock c -> timing limit clock (step' c).
Proof.
  destruct c as [b iter|b iter cur pending ending|b path cur|[path|]|e]; simpl;
    try exact (fun H => H).
  - intros Ht. destruct (Z.ltb_spec (clock (S iter) - clock 0%nat) limit) as [Hlt|Hge].
    + destruct (heappop (queue b)) as [[[p cur] q']|]; [|exact I].
      destruct (is_goal cur) as [[|]|e]; [| |exact I].
      * now destruct (follow _ cur) as [[lnk previous]|e].
      * simpl. intros j Hj. destruct (decide (j = iter)) as [->|Hne]; [exact Hlt|].
        apply Ht. lia.
    + simpl. exists iter. auto.
  - intros Ht. destruct pending as [|adj pending].
    + destruct ending; simpl; [exact I|]. intros j Hj. apply Ht. lia.
    + now destruct (relax heuristic_fn b cur adj).
  - intros _. destruct cur as [s|]; [|exact I].
    now destruct (follow b s) as [[lnk previous]|e].
Qed.

Lemma run_timing n : timing limit clock (run' n).
Proof.
  induction n; simpl; [|now apply step_timing]. intros j Hj. lia.
Qed.

End TimingFacts.

(** The search gives up only on the clock: when it returns [None], a test
    of the loop found the limit reached, and it was the first one that
    did. *)
Theorem failure_means_timeout
    (graph_fn : State -> generated (string * State * Z)) (state : State)
    (is_goal : State -> result bool) (limit : Z)
    (heuristic_fn : State -> result prio) (clock : nat -> Z) (fuel : nat) :
  search graph_fn state is_goal limit heuristic_fn clock fuel = Some (Ok None) ->
  exists iter, limit <= clock (S iter) - clock 0%nat /\
               forall j, (j < iter)%nat -> clock (S j) - clock 0%nat < limit.
Proof.
  unfold search. intros H.
  pose proof (run_timing graph_fn state is_goal limit heuristic_fn clock fuel) as Ht.
  destruct (run _ _ _ _ _ _ fuel) as [| | |[p|]|]; try discriminate. exact Ht.
Qed.

(** *** Costs *)

Section CostFacts.

Variable graph_fn : State -> generated (string * State * Z).
Variable state : State.
Variable is_goal : State -> result bool.
Variable limit : Z.
Variable heuristic_fn : State -> result prio.
Variable clock : nat -> Z.

Local Abbreviation step' := (step graph_fn is_goal limit heuristic_fn clock).
Local Abbreviation run' := (run graph_fn state is_goal limit heuristic_fn clock).
Local Abbreviation steps' := (steps graph_fn is_goal limit heuristic_fn clock).

(** The tables change in [relax] only. *)
Lemma step_tables_inv (Q : book -> Prop) (R : Z -> Prop) c :
  (forall b q, Q b -> Q {| queue := q; cost_so_far := cost_so_far b;
                           came_from := came_from b; actions := actions b |}) ->
  (forall p x, In x (fst (graph_fn p)) -> R (snd x)) ->
  (forall b cur adj b', Q b -> R (snd adj) ->
     relax heuristic_fn b cur adj = Ok b' -> Q b') ->
  tables_inv Q R c -> tables_inv Q R (step' c).
Proof.
  intros Hq Hg Hr.
  destruct c as [b iter|b iter cur pending ending|b path cur|r|e]; simpl;
    try exact (fun H => H).
  - intros Hb. destruct (_ <? _); [|exact I].
    destruct (heappop (queue b)) as [[[p cur] q']|]; [|exact I].
    destruct (is_goal cur) as [[|]|e]; [| |exact I].
    + destruct (follow _ cur) as [[lnk previous]|e]; [|exact I].
      simpl. now apply Hq.
    + simpl. split; [now apply Hq|]. apply Hg.
  - intros (Hb & Hpend). destruct pending as [|adj pending].
    + destruct ending; simpl; auto.
    + destruct (relax heuristic_fn b cur adj) as [b'|e] eqn:E; [|exact I].
      simpl. split.
      * eapply Hr; eauto. apply Hpend. now left.
      * intros x Hx. apply Hpend. now right.
  - intros Hb. destruct cur as [s|]; [|exact I].
    now destruct (follow b s) as [[lnk previous]|e].
Qed.

Lemma relax_costs_ok b cur adj b' :
  costs_ok state b -> 0 <= snd adj ->
  relax heuristic_fn b cur adj = Ok b' -> costs_ok state b'.
Proof.
  intros (H0 & Hf & Ha & Hpos) Hc. destruct adj as [[a s] c]. simpl in Hc.
  unfold relax. destruct (cost_so_far b !! cur) as [g|] eqn:Eg; [|discriminate].
  pose proof (Hpos cur g Eg) as Hg.
  destruct (cost_so_far b !! s) as [old|] eqn:Eold.
  - destruct (Z.ltb_spec (g + c) old) as [Hlt|Hge].
    2:{ intros [= <-]. repeat split; auto. }
    destruct (heuristic_fn s) as [h|e]; simpl; [|discriminate].
    intros [= <-].
    assert (Hne : s <> state).
    { intros ->. rewrite H0 in Eold. injection Eold as <-. lia. }
    repeat split; simpl; try (rewrite lookup_insert_ne by exact Hne; assumption).
    intros t v. destruct (decide (s = t)) as [->|Hnt].
    + rewrite lookup_insert_eq. intros [= <-]. lia.
    + rewrite lookup_insert_ne by exact Hnt. apply Hpos.
  - destruct (heuristic_fn s) as [h|e]; simpl; [|discriminate].
    intros [= <-].
    assert (Hne : s <> state).
    { intros ->. rewrite H0 in Eold. discriminate. }
    repeat split; simpl; try (rewrite lookup_insert_ne by exact Hne; assumption).
    intros t v. destruct (decide (s = t)) as [->|Hnt].
    + rewrite lookup_insert_eq. intros [= <-]. lia.
    + rewrite lookup_insert_ne by exact Hnt. apply Hpos.
Qed.

Lemma relax_descending b cur adj b' :
  descending b -> 0 < snd adj ->
  relax heuristic_fn b cur adj = Ok b' -> descending b'.
Proof.
  intros Hd Hc. destruct adj as [[a s] c]. simpl in Hc.
  unfold relax. destruct (cost_so_far b !! cur) as [g|] eqn:Eg; [|discriminate].
  destruct (match cost_so_far b !! s with
            | Some old => g + c <? old | None => true end) eqn:Econd.
  2:{ now intros [= <-]. }
  destruct (heuristic_fn s) as [h|e]; simpl; [|discriminate].
  intros [= <-].
  assert (Hne : cur <> s).
  { intros ->. rewrite Eg in Econd. apply Z.ltb_lt in Econd. lia. }
  intros t p Ht. simpl in *.
  destruct (decide (s = t)) as [->|Hnt].
  - rewrite lookup_insert_eq in Ht. injection Ht as <-.
    exists (g + c), g. rewrite lookup_insert_eq.
    rewrite lookup_insert_ne by (intros E; now apply Hne).
    repeat split; [exact Eg|lia].
  - rewrite lookup_insert_ne in Ht by exact Hnt.
    destruct (Hd t p Ht) as (ct & cp & Hct & Hcp & Hlt).
    rewrite lookup_insert_ne by exact Hnt.
    destruct (decide (s = p)) as [->|Hnp].
    + exists ct, (g + c). rewrite lookup_insert_eq. repeat split; [exact Hct|].
      rewrite Hcp in Econd. apply Z.ltb_lt in Econd. lia.
    + exists ct, cp. rewrite lookup_insert_ne by exact Hnp. auto.
Qed.

Lemma run_costs_ok n :
  (forall p a s c, In (a, s, c) (fst (graph_fn p)) -> 0 <= c) ->
  tables_inv (costs_ok state) (fun c => 0 <= c) (run' n).
Proof.
  intros Hg. induction n as [|n IH]; simpl.
  - unfold costs_ok. simpl. rewrite !lookup_singleton_eq.
    repeat split. intros s v Hv. apply lookup_singleton_Some in Hv as [_ <-]. lia.
  - apply step_tables_inv; [| | |exact IH].
    + now intros b q.
    + intros p [[a s] c] Hin. simpl. eauto.
    + intros b cur adj b'. apply relax_costs_ok.
Qed.

Lemma steps_descending n c :
  (forall p a s c, In (a, s, c) (fst (graph_fn p)) -> 0 < c) ->
  tables_inv descending (fun c => 0 < c) c ->
  tables_inv descending (fun c => 0 < c) (steps' n c).
Proof.
  intros Hg. revert c. induction n as [|n IH]; intros c Hc; simpl; [exact Hc|].
  apply IH. apply step_tables_inv; [| | |exact Hc].
  - now intros b q.
  - intros p [[a s] c0] Hin. simpl. eauto.
  - intros b cur adj b'. apply relax_descending.
Qed.

Lemma steps_step n c : steps' (S n) c = step' (steps' n c).
Proof.
  revert c. induction n as [|n IH]; intros c; [reflexivity|].
  change (steps' (S (S n)) c) with (steps' (S n) (step' c)). rewrite IH.
  reflexivity.
Qed.

Lemma run_steps n : run' n = steps' n (init state).
Proof.
  induction n as [|n IH]; [reflexivity|]. rewrite steps_step, <- IH. reflexivity.
Qed.

Lemma steps_app n m c : steps' (n + m) c = steps' m (steps' n c).
Proof. revert c. induction n as [|n IH]; intros c; simpl; [reflexivity|apply IH]. Qed.

Lemma steps_finished n c : finished c = true -> steps' n c = c.
Proof.
  intros H. induction n as [|n IH]; [reflexivity|]. simpl.
  destruct c; try discriminate; exact IH.
Qed.

Lemma ends_later n m c :
  finished (steps' n c) = true -> finished (steps' (n + m) c) = true.
Proof. intros H. rewrite steps_app. now rewrite steps_finished. Qed.

Lemma filter_length_lt {A : Type} (f g : A -> bool) (l : list A) (x : A) :
  (forall y, f y = true -> g y = true) ->
  In x l -> g x = true -> f x = false ->
  (length (List.filter f l) < length (List.filter g l))%nat.
Proof.
  intros Hfg. assert (Hle : forall l', (length (List.filter f l')
                                     <= length (List.filter g l'))%nat).
  { induction l' as [|y l' IH]; simpl; [lia|].
    destruct (f y) eqn:Ef.
    - rewrite (Hfg y Ef). simpl. lia.
    - destruct (g y); simpl; lia. }
  induction l as [|y l IH]; simpl; [intros []|].
  intros [->|Hin] Hg Hf.
  - rewrite Hg, Hf. simpl. specialize (Hle l). lia.
  - specialize (IH Hin Hg Hf). destruct (f y) eqn:Ef.
    + rewrite (Hfg y Ef). simpl. lia.
    + destruct (g y); simpl; lia.
Qed.

Lemma below_lt b p cp cs :
  cost_so_far b !! p = Some cp -> cp < cs -> (below b cp < below b cs)%nat.
Proof.
  intros Hp Hlt. unfold below.
  apply (filter_length_lt _ _ _ (p, cp)).
  - intros [t v] Hv. simpl in *. apply Z.ltb_lt in Hv. apply Z.ltb_lt. lia.
  - apply list_elem_of_In, elem_of_map_to_list. exact Hp.
  - simpl. now apply Z.ltb_lt.
  - simpl. apply Z.ltb_ge. lia.
Qed.

(** The path loop ends when every state costs more than its predecessor. *)
Lemma rebuild_ends b :
  descending b ->
  forall (m : nat) path s,
    (forall cs, cost_so_far b !! s = Some cs -> (below b cs <= m)%nat) ->
    exists n, finished (steps' n (Rebuild b path (Some s))) = true.
Proof.
  intros Hd. induction m as [|m IH]; intros path s Hm.
  - destruct (follow b s) as [[lnk previous]|e] eqn:Hf.
    + apply follow_Ok in Hf as Hf'. destruct Hf' as (a & -> & _ & Hp).
      destruct previous as [p|].
      * destruct (Hd s p Hp) as (cs & cp & Hcs & Hcp & Hlt).
        pose proof (below_lt b p cp cs Hcp Hlt). specialize (Hm cs Hcs). lia.
      * exists 2%nat. simpl. now rewrite Hf.
    + exists 1%nat. simpl. now rewrite Hf.
  - destruct (follow b s) as [[lnk previous]|e] eqn:Hf.
    + apply follow_Ok in Hf as Hf'. destruct Hf' as (a & -> & _ & Hp).
      destruct previous as [p|].
      * destruct (Hd s p Hp) as (cs & cp & Hcs & Hcp & Hlt).
        pose proof (below_lt b p cp cs Hcp Hlt) as Hb. specialize (Hm cs Hcs).
        destruct (IH (path ++ [(s, a)]) p) as [n Hn].
        { intros cp' Hcp'. rewrite Hcp in Hcp'. injection Hcp' as <-. lia. }
        exists (S n). simpl. now rewrite Hf.
      * exists 2%nat. simpl. now rewrite Hf.
    + exists 1%nat. simpl. now rewrite Hf.
Qed.

(** The [for] loop ends: in an exception or at the next test. *)
Lemma for_ends iter cur ending pending :
  forall b,
  exists n,
    finished (steps' n (InFor b iter cur pending ending)) = true \/
    exists b', steps' n (InFor b iter cur pending ending) = AtLoop b' (S iter).
Proof.
  induction pending as [|adj pending IH]; intros b.
  - exists 1%nat. simpl. destruct ending; eauto.
  - destruct (relax heuristic_fn b cur adj) as [b'|e] eqn:Hr.
    + destruct (IH b') as [n Hn]. exists (S n). simpl. now rewrite Hr.
    + exists 1%nat. simpl. rewrite Hr. auto.
Qed.

Lemma loop_ends (K : nat) :
  (forall p a s c, In (a, s, c) (fst (graph_fn p)) -> 0 < c) ->
  limit <= clock (S K) - clock 0%nat ->
  forall (d : nat) b iter,
    (iter + d = K)%nat -> descending b ->
    exists n, finished (steps' n (AtLoop b iter)) = true.
Proof.
  intros Hg HK. induction d as [|d IH]; intros b iter Hd Hb.
  - exists 1%nat. simpl. replace iter with K by lia.
    destruct (Z.ltb_spec (clock (S K) - clock 0%nat) limit); [lia|reflexivity].
  - destruct (Z.ltb_spec (clock (S iter) - clock 0%nat) limit) as [Hlt|Hge].
    2:{ exists 1%nat. simpl.
        destruct (Z.ltb_spec (clock (S iter) - clock 0%nat) limit); [lia|reflexivity]. }
    assert (Hstep : forall n, steps' (S n) (AtLoop b iter) =
                              steps' n (step' (AtLoop b iter))) by reflexivity.
    destruct (step' (AtLoop b iter)) as [b1 i1|b1 i1 cur pending ending|b1 path cur|r|e]
      eqn:Es.
    + exfalso. simpl in Es. apply Z.ltb_lt in Hlt. rewrite Hlt in Es.
      destruct (heappop (queue b)) as [[[p cur] q']|]; [|discriminate].
      destruct (is_goal cur) as [[|]|e]; try discriminate.
      now destruct (follow _ cur) as [[lnk previous]|e].
    + assert (Hinv : tables_inv descending (fun c => 0 < c)
                       (InFor b1 i1 cur pending ending)).
      { rewrite <- Es. apply (steps_descending 1%nat (AtLoop b iter) Hg). exact Hb. }
      assert (Hi : i1 = iter).
      { simpl in Es. apply Z.ltb_lt in Hlt. rewrite Hlt in Es.
        destruct (heappop (queue b)) as [[[p cur'] q']|]; [|discriminate].
        destruct (is_goal cur') as [[|]|e]; try discriminate.
        - now destruct (follow _ cur') as [[lnk previous]|e].
        - now injection Es. }
      subst i1. destruct (for_ends iter cur ending pending b1) as [n1 [Hn1|[b2 Hn1]]].
      * exists (S n1). now rewrite Hstep.
      * pose proof (steps_descending n1 _ Hg Hinv) as Hinv2. rewrite Hn1 in Hinv2.
        destruct (IH b2 (S iter)) as [n2 Hn2]; [lia|exact Hinv2|].
        exists (S (n1 + n2)). rewrite Hstep, steps_app, Hn1. exact Hn2.
    + assert (Hinv : tables_inv descending (fun c => 0 < c) (Rebuild b1 path cur)).
      { rewrite <- Es. apply (steps_descending 1%nat (AtLoop b iter) Hg). exact Hb. }
      destruct cur as [s|].
      * destruct (rebuild_ends b1 Hinv (length (map_to_list (cost_so_far b1))) path s)
          as [n Hn].
        { intros cs _. unfold below. apply List.filter_length_le. }
        exists (S n). now rewrite Hstep.
      * exists 2%nat. now rewrite Hstep.
    + exists 1%nat. now rewrite Hstep.
    + exists 1%nat. now rewrite Hstep.
Qed.

End CostFacts.

(** With costs that are not negative, the entry of the start is never
    overwritten (cost 0, no predecessor, no action) and no recorded cost is
    negative, at any point of any run. *)
Theorem start_entry_kept
    (graph_fn : State -> generated (string * State * Z)) (state : State)
    (is_goal : State -> result bool) (limit : Z)
    (heuristic_fn : State -> result prio) (clock : nat -> Z) (n : nat) (b : book) :
  (forall p a s c, In (a, s, c) (fst (graph_fn p)) -> 0 <= c) ->
  book_of (run graph_fn state is_goal limit heuristic_fn clock n) = Some b ->
  costs_ok state b.
Proof.
  intros Hg Hb.
  pose proof (run_costs_ok graph_fn state is_goal limit heuristic_fn clock n Hg) as H.
  destruct (run _ _ _ _ _ _ n) as [b0 i|b0 i cur pending ending|b0 path cur|r|e];
    simpl in *; try discriminate; injection Hb as <-; tauto.
Qed.

(** With positive costs the search ends once the clock reaches the limit:
    if some test of the loop finds the limit reached, the call returns a
    path, returns [None] or raises. *)
Theorem search_terminates
    (graph_fn : State -> generated (string * State * Z)) (state : State)
    (is_goal : State -> result bool) (limit : Z)
    (heuristic_fn : State -> result prio) (clock : nat -> Z) (K : nat) :
  (forall p a s c, In (a, s, c) (fst (graph_fn p)) -> 0 < c) ->
  limit <= clock (S K) - clock 0%nat ->
  exists fuel outcome,
    search graph_fn state is_goal limit heuristic_fn clock fuel = Some outcome.
Proof.
  intros Hg HK.
  destruct (loop_ends graph_fn is_goal limit heuristic_fn clock K Hg HK K
              {| queue := [(Fin 0, state)]; cost_so_far := {[state := 0]};
                 came_from := {[state := None]}; actions := {[state := None]} |}
              0%nat) as [n Hn].
  - reflexivity.
  - intros s p H. simpl in H. apply lookup_singleton_Some in H as [_ [=]].
  - exists n. unfold search. rewrite run_steps. unfold init.
    destruct (steps _ _ _ _ _ n _); try discriminate; eauto.
Qed.

(** ** The further properties on the sample data *)

Ltac solve_dict :=
  unfold is_dict; apply (bool_decide_unpack _); vm_compute; exact I.

Lemma make_checker_raises_witness :
  exists k, KeyError_item "plank" = KeyError_item k /\
            lookup_key [("bench"%string, 1)] k = None /\
            In k (keys (clause (Consumes craft_stick))
                  ++ keys (clause (Requires craft_stick))).
Proof.
  apply (make_checker_raises craft_stick [("bench"%string, 1)]). reflexivity.
Defined.

Lemma effect_keeps_items_witness :
  keys four_planks = keys [("wood"%string, 1); ("plank"%string, 0)]
  /\ is_dict four_planks.
Proof.
  apply (effect_keeps_items craft_plank [("wood"%string, 1); ("plank"%string, 0)]).
  - solve_dict.
  - reflexivity.
Defined.

Lemma checker_monotone_witness :
  make_checker craft_stick [("bench", 2); ("plank", 5); ("stick", 0)]%string = Ok true.
Proof.
  apply (checker_monotone craft_stick with_bench).
  - reflexivity.
  - intros k Hk. simpl in Hk. destruct Hk as [<-|[]]. vm_compute. discriminate.
  - solve_contains.
  - intros k Hk. simpl in Hk.
    repeat (destruct Hk as [<-|Hk]; [vm_compute; discriminate|]). destruct Hk.
Defined.

Lemma make_effector_lookup_witness :
  exists st',
    make_effector craft_stick with_bench = Ok st' /\ keys st' = keys with_bench /\
    forall k,
      lookup_key st' k =
      if existsb (String.eqb k) (keys (clause (Consumes craft_stick)))
      then Some (amount with_bench k - amount (clause (Consumes craft_stick)) k)
      else if existsb (String.eqb k) (keys (clause (Produces craft_stick)))
           then Some (amount with_bench k + amount (clause (Produces craft_stick)) k)
           else lookup_key with_bench k.
Proof.
  apply (make_effector_lookup craft_stick with_bench).
  - solve_dict.
  - solve_contains.
Defined.

Lemma initial_state_spec_witness :
  is_dict (initial_state small_crafting) /\
  lookup_key (initial_state small_crafting) "wood" = Some 1 /\
  lookup_key (initial_state small_crafting) "bench" = Some 0.
Proof.
  assert (Hd : is_dict (Initial small_crafting)) by solve_dict.
  destruct (initial_state_spec small_crafting Hd) as (H1 & _ & H3 & H4).
  split; [exact H1|]. split.
  - apply H3. reflexivity.
  - apply H4; [now left|reflexivity].
Defined.

Lemma displayed_positive_witness :
  displayed in_debt = [("wood"%string, 1)].
Proof.
  assert (Hd : is_dict in_debt) by solve_dict.
  destruct (displayed_positive in_debt Hd) as [H _]. exact H.
Defined.

Lemma copy_fresh_witness :
  exists h',
    Heap.copy_h 0%nat a_store = (h', Ok (length (Heap.states a_store))) /\
    Heap.states h' = Heap.states a_store ++ [Heap.state_at a_store 0%nat] /\
    Heap.rules h' = Heap.rules a_store /\
    Heap.state_at h' (length (Heap.states a_store)) = Heap.state_at a_store 0%nat /\
    forall l0, (l0 < length (Heap.states a_store))%nat ->
               Heap.state_at h' l0 = Heap.state_at a_store l0.
Proof.
  apply (copy_fresh a_store 0%nat).
  - simpl. lia.
  - solve_dict.
Defined.

Lemma search_keeps_items_witness :
  all_states (fun s => keys s = keys a_log)
    (run (graph (build_recipes (Recipes small_crafting))) a_log
         (make_goal_checker want_planks) thirty_seconds heuristic microseconds 6).
Proof.
  apply (search_keeps_items (Recipes small_crafting) a_log). solve_dict.
Defined.



Lemma failure_means_timeout_witness :
  exists iter, 1 <= microseconds (S iter) - microseconds 0 /\
               forall j, (j < iter)%nat -> microseconds (S j) - microseconds 0 < 1.
Proof.
  apply (failure_means_timeout (graph planks_only) a_log
           (make_goal_checker want_log) 1 heuristic microseconds 1).
  reflexivity.
Defined.

Lemma planks_cost_positive :
  forall p a s c, In (a, s, c) (fst (graph planks_only p)) -> 0 < c.
Proof.
  intros p a s c H. apply graph_In in H as (r & Hr & _ & _ & _ & <-).
  destruct Hr as [<-|[]]. reflexivity.
Qed.

Lemma start_entry_kept_witness :
  exists b,
    book_of (run (graph planks_only) a_log (make_goal_checker want_bench)
                 thirty_seconds heuristic microseconds 3) = Some b /\
    costs_ok a_log b.
Proof.
  destruct (book_of (run (graph planks_only) a_log (make_goal_checker want_bench)
                         thirty_seconds heuristic microseconds 3))
    as [b|] eqn:E.
  - exists b. split; [reflexivity|].
    apply (start_entry_kept (graph planks_only) a_log (make_goal_checker want_bench)
             thirty_seconds heuristic microseconds 3 b); [|exact E].
    intros p a s c H. apply planks_cost_positive in H. lia.
  - vm_compute in E. discriminate.
Defined.

Lemma search_terminates_witness :
  exists fuel outcome,
    search (graph planks_only) a_log (make_goal_checker want_bench) 2 heuristic
           microseconds fuel = Some outcome.
Proof.
  apply (search_terminates (graph planks_only) a_log (make_goal_checker want_bench)
           2 heuristic microseconds 1).
  - exact planks_cost_positive.
  - vm_compute. discriminate.
Defined.
